(** * The subword tokenizer of [tokenization.ipynb]

    A shallow embedding of the notebook's own code: the sentinel scan
    ([START], [END]), [add_start_end], [cleanup_text], the methods of
    [CustomTokenizer] and [write_vocab_file], together with the TensorFlow
    operations they are written with (modelled on ragged tensors as lists of
    rows).  The WordPiece tokenizer that the class wraps
    ([text.BertTokenizer]) is a collaborator: the notebook's code is
    parametrised by it, and a model of it following the specification is
    given in a module of its own. *)

From Stdlib Require Import Ascii String.
From stdpp Require Import base numbers list strings gmap.

Open Scope Z_scope.

(** ** Texts, ragged tensors, raised errors *)

(** A Python [str] / TensorFlow string scalar: a sequence of characters,
    each given by its code point, for texts of code points below 256 (the
    Latin-1 range the corpus filter admits); an [ascii] is a code point,
    not a byte of an encoding. *)
Abbreviation text := (list ascii) (only parsing).

Definition str (s : string) : text := list_ascii_of_string s.

(** A ragged tensor of rank 2 is a list of rows of independent length. *)
Abbreviation RaggedTensor A := (list (list A)) (only parsing).

(** The exceptions the modelled operations raise. *)
Inductive exn : Type :=
  | IndexOutOfRange (index : Z) (size : nat)
  | EmptyReduction
  | RowCountMismatch
  | FileNotFound (path : string)
  | CorruptVocabulary.

Inductive result (A : Type) : Type :=
  | Ok (a : A)
  | Raise (e : exn).
Arguments Ok {A} a.
Arguments Raise {A} e.

#[global] Instance result_ret : MRet result := λ A a, Ok a.
#[global] Instance result_bind : MBind result := λ A B k r,
  match r with
  | Ok a => k a
  | Raise e => Raise e
  end.

Definition raises {A} (r : result A) : Prop := ∃ e, r = Raise e.

(** ** TensorFlow operations used by the notebook *)

Module tf.

(** [tf.constant(tokens) == s]: elementwise equality with a scalar. *)
Definition equal (tokens : list text) (s : text) : list bool :=
  (λ tok, bool_decide (tok = s)) <$> tokens.

(** [tf.argmax] along the only axis: the smallest index holding the
    largest value.  Reducing an empty axis is an error. *)
Fixpoint argmax_from (best_i : nat) (best : Z) (i : nat) (xs : list Z) : nat :=
  match xs with
  | [] => best_i
  | x :: xs' =>
      if best <? x then argmax_from i x (S i) xs'
      else argmax_from best_i best (S i) xs'
  end.

Definition argmax (xs : list bool) : result Z :=
  match Z.b2z <$> xs with
  | [] => Raise EmptyReduction
  | x :: xs' => Ok (Z.of_nat (argmax_from 0 x 1 xs'))
  end.

(** [tf.fill([count, 1], v)]: [count] rows holding [v] alone. *)
Definition fill {A} (count : nat) (v : A) : RaggedTensor A := replicate count [v].

(** [tf.concat([a, b], axis=1)]: rows are appended pairwise; the operands
    must have the same number of rows. *)
Fixpoint concat_rows {A} (a b : RaggedTensor A) : result (RaggedTensor A) :=
  match a, b with
  | [], [] => Ok []
  | ra :: a', rb :: b' => rest ← concat_rows a' b'; Ok ((ra ++ rb) :: rest)
  | _, _ => Raise RowCountMismatch
  end.

Definition concat3 {A} (a b c : RaggedTensor A) : result (RaggedTensor A) :=
  ab ← concat_rows a b; concat_rows ab c.

(** [ragged.bounding_shape()[0]]: the number of rows. *)
Definition bounding_rows {A} (r : RaggedTensor A) : nat := length r.

(** [enc.merge_dims(-2, -1)]: the two innermost axes become one. *)
Definition merge_dims {A} (enc : list (RaggedTensor A)) : RaggedTensor A := (λ words : RaggedTensor A, mjoin words) <$> enc.

(** [tf.gather(params, ids)] for one id: the entry at that index; an index
    outside [0, size) is an error. *)
Definition gather1 {A} (params : list A) (id : Z) : result A :=
  if bool_decide (0 ≤ id) then
    match params !! Z.to_nat id with
    | Some p => Ok p
    | None => Raise (IndexOutOfRange id (length params))
    end
  else Raise (IndexOutOfRange id (length params)).

Definition gather {A} (params : list A) (ids : RaggedTensor Z) : result (RaggedTensor A) :=
  mapM (mapM (gather1 params)) ids.

(** [tf.strings.regex_full_match(cell, "|".join(alts))] where every
    alternative is a [re.escape]d literal (an escaped literal matches
    itself and nothing else): the cell is one of the literals.  The join of
    no alternative is the empty pattern, which matches the empty cell
    only. *)
Definition regex_full_match_literals (alts : list text) (cell : text) : bool :=
  match alts with
  | [] => bool_decide (cell = [])
  | _ => bool_decide (cell ∈ alts)
  end.

(** [tf.ragged.boolean_mask(row, mask)] on one row whose mask is computed
    cell by cell. *)
Definition boolean_mask {A} (keep : A → bool) (row : list A) : list A :=
  filter (λ c, keep c = true) row.

(** [tf.strings.reduce_join(row, separator=sep, axis=-1)]; an empty row
    joins to the empty string. *)
Fixpoint reduce_join (sep : text) (row : list text) : text :=
  match row with
  | [] => []
  | [w] => w
  | w :: row' => w ++ sep ++ reduce_join sep row'
  end.

End tf.

(** ** Files *)

(** The part of the file system the notebook touches: vocabulary files,
    by path, holding decoded text. *)
Abbreviation filesystem := (gmap string text) (only parsing).

Definition newline : ascii := ascii_of_nat 10.
Definition carriage_return : ascii := ascii_of_nat 13.

(** The characters [str.splitlines] breaks a line at (code points below
    256): LF, VT, FF, CR, FS, GS, RS, NEL. *)
Definition is_line_boundary (c : ascii) : bool :=
  bool_decide (nat_of_ascii c ∈ [10; 11; 12; 13; 28; 29; 30; 133]%nat).

(** [str.splitlines()]: the lines without their terminators; CR LF is one
    terminator; a final terminator opens no further line. *)
Fixpoint splitlines (s : text) : list text :=
  match s with
  | [] => []
  | c :: s' =>
      if is_line_boundary c then
        match s' with
        | c' :: s'' =>
            if bool_decide (c = carriage_return ∧ c' = newline)
            then [] :: splitlines s''
            else [] :: splitlines s'
        | [] => [[]]
        end
      else
        match splitlines s' with
        | [] => [[c]]
        | line :: lines => (c :: line) :: lines
        end
  end.

(** [pathlib.Path(path).read_text()] *)
Definition read_text (fs : filesystem) (path : string) : result text :=
  match fs !! path with
  | Some content => Ok content
  | None => Raise (FileNotFound path)
  end.

(** [write_vocab_file(filepath, vocab)]: the file is opened for writing
    (truncated) and every token is printed on a line of its own. *)
Definition printed_lines (vocab : list text) : text :=
  mjoin ((λ token, token ++ [newline]) <$> vocab).

Definition write_vocab_file (filepath : string) (vocab : list text)
    (fs : filesystem) : filesystem :=
  <[filepath := printed_lines vocab]> fs.

(** The vocabulary read of [CustomTokenizer.__init__]:
    [pathlib.Path(vocab_path).read_text().splitlines()]. *)
Definition load_vocab (fs : filesystem) (vocab_path : string) : result (list text) :=
  content ← read_text fs vocab_path; Ok (splitlines content).

(** ** The notebook's tokenizer *)

(** [config.py] as far as the tokenizer reads it. *)
Record Config : Type := { RESERVED_TOKENS : list text }.

(** The interface of [text.BertTokenizer] the notebook relies on:
    [tokenize] maps a batch of strings to ids of shape
    [batch, words, pieces]; [detokenize] maps rows of ids to rows of words. *)
Record BertTokenizer : Type := {
  bert_tokenize : list text → list (RaggedTensor Z);
  bert_detokenize : RaggedTensor Z → result (RaggedTensor text)
}.

Record CustomTokenizer : Type := {
  tokenizer : BertTokenizer;
  _reserved_tokens : list text;
  vocab : list text
}.

Section Notebook.

Variable config : Config.
(** [tensorflow_text]'s [case_fold_utf8], the normalisation applied before
    tokenizing. *)
Variable case_fold_utf8 : text → text.

Definition START : result Z :=
  tf.argmax (tf.equal (RESERVED_TOKENS config) (str "[START]")).
Definition END : result Z :=
  tf.argmax (tf.equal (RESERVED_TOKENS config) (str "[END]")).

Definition add_start_end (ragged : RaggedTensor Z) : result (RaggedTensor Z) :=
  start ← START;
  end_ ← END;
  let count := tf.bounding_rows ragged in
  let starts := tf.fill count start in
  let ends := tf.fill count end_ in
  tf.concat3 starts ragged ends.

(** The pattern of [cleanup_text]: the reserved tokens except "[UNK]",
    each escaped, joined by "|". *)
Definition bad_tokens (reserved_tokens : list text) : list text :=
  filter (λ tok, tok ≠ str "[UNK]") reserved_tokens.

(** The cells [cleanup_text] keeps of one row. *)
Definition kept_cells (reserved_tokens : list text) (row : list text) : list text :=
  let bad_cells := tf.regex_full_match_literals (bad_tokens reserved_tokens) in
  tf.boolean_mask (λ cell, negb (bad_cells cell)) row.

Definition cleanup_text (reserved_tokens : list text) (token_txt : RaggedTensor text)
    : list text :=
  let result := kept_cells reserved_tokens <$> token_txt in
  tf.reduce_join (str " ") <$> result.

(** [CustomTokenizer.__init__].  Its first statement builds the library
    tokenizer from the file: [BertTokenizer_new] stands for
    [text.BertTokenizer(vocab_path, **config.BERT_TOKENIZER_PARAMS)], which
    may raise; the vocabulary is read from the same file afterwards. *)
Definition init (BertTokenizer_new : filesystem → string → result BertTokenizer)
    (fs : filesystem) (vocab_path : string) : result CustomTokenizer :=
  bert ← BertTokenizer_new fs vocab_path;
  vocab ← load_vocab fs vocab_path;
  Ok {| tokenizer := bert;
        _reserved_tokens := RESERVED_TOKENS config;
        vocab := vocab |}.

Definition tokenize (self : CustomTokenizer) (strings : list text)
    : result (RaggedTensor Z) :=
  let strings := case_fold_utf8 <$> strings in
  let enc := bert_tokenize (tokenizer self) strings in
  let enc := tf.merge_dims enc in
  add_start_end enc.

Definition detokenize (self : CustomTokenizer) (tokenized : RaggedTensor Z)
    : result (list text) :=
  words ← bert_detokenize (tokenizer self) tokenized;
  Ok (cleanup_text (_reserved_tokens self) words).

Definition lookup (self : CustomTokenizer) (token_ids : RaggedTensor Z)
    : result (RaggedTensor text) :=
  tf.gather (vocab self) token_ids.

Definition get_vocab_size (self : CustomTokenizer) : Z :=
  Z.of_nat (length (vocab self)).

Definition get_reserved_tokens (self : CustomTokenizer) : list text :=
  _reserved_tokens self.

End Notebook.

(** ** The WordPiece tokenizer wrapped by the class *)

Module WordPiece.

(** Modelled from the spec: the word splitter, the greedy decomposition and
    the detokenizer of [text.BertTokenizer] are library code, absent from
    the notebook.  Whitespace separates words. *)
Definition is_whitespace (c : ascii) : bool :=
  bool_decide (nat_of_ascii c ∈ [9; 10; 13; 32]%nat).

(** Modelled from the spec: the fixed set of punctuation boundaries of
    the absent splitter, taken as the ASCII characters that are neither
    letters, digits, blanks nor controls. *)
Definition is_punctuation (c : ascii) : bool :=
  let n := nat_of_ascii c in
  bool_decide ((33 ≤ n ≤ 47) ∨ (58 ≤ n ≤ 64) ∨ (91 ≤ n ≤ 96) ∨ (123 ≤ n ≤ 126))%nat.

Definition is_boundary (c : ascii) : bool := is_whitespace c || is_punctuation c.

(** Modelled from the spec: word splitting of the absent tokenizer:
    "split normalized text on whitespace and a fixed set of punctuation
    boundaries (punctuation characters are emitted as their own
    single-character words)". *)
Fixpoint word_split (s : text) : list text :=
  match s with
  | [] => []
  | c :: s' =>
      if is_whitespace c then word_split s'
      else if is_punctuation c then [c] :: word_split s'
      else
        match s' with
        | c' :: _ =>
            if is_boundary c' then [c] :: word_split s'
            else
              match word_split s' with
              | w :: ws => (c :: w) :: ws
              | [] => [[c]]
              end
        | [] => [[c]]
        end
  end.

(** Modelled from the spec: the continuation marker that the absent
    tokenizer puts in front of non-initial pieces. *)
Definition marker : text := str "##".

Definition piece_key (at_start : bool) (s : text) : text :=
  if at_start then s else marker ++ s.

(** Modelled from the spec: the absent vocabulary table: "an ordered
    sequence of unique pieces (strings), index = token id". *)
Definition piece_id (vocab : list text) (piece : text) : option Z :=
  (λ hit : nat * text, Z.of_nat hit.1) <$> list_find (λ p, p = piece) vocab.

(** Modelled from the spec: one step of the absent decomposition: "find
    the longest vocabulary piece (continuation-marked if not at the word
    start) that matches a prefix of the remaining word text".  Prefixes of
    length [n] down to a single character are tried in turn. *)
Fixpoint longest_match (vocab : list text) (at_start : bool) (n : nat)
    (rest : text) : option (Z * text) :=
  match n with
  | O => None
  | S n' =>
      match piece_id vocab (piece_key at_start (take n rest)) with
      | Some id => Some (id, drop n rest)
      | None => longest_match vocab at_start n' rest
      end
  end.

(** Modelled from the spec: the absent greedy loop: "emit its id; advance
    the offset past the match; repeat until the word is consumed"; [None]
    when some position has no match.  Every step consumes a character, so
    [fuel] as long as the word is never exhausted. *)
Fixpoint decompose (fuel : nat) (vocab : list text) (at_start : bool)
    (rest : text) : option (list Z) :=
  match rest with
  | [] => Some []
  | _ :: _ =>
      match fuel with
      | O => None
      | S fuel' =>
          match longest_match vocab at_start (length rest) rest with
          | None => None
          | Some (id, rest') =>
              ids ← decompose fuel' vocab false rest'; Some (id :: ids)
          end
      end
  end.

(** Modelled from the spec: the absent per-word tokenizer: "If at any
    position no piece matches (including the single-character fallback),
    the entire word maps to a single configured unknown token id". *)
Definition wordpiece (vocab : list text) (unk_id : Z) (word : text) : list Z :=
  default [unk_id] (decompose (length word) vocab true word).

(** Modelled from the spec: the absent tokenizer: one sequence of ids per
    word of the text. *)
Definition tokenize (vocab : list text) (unk_id : Z) (s : text) : RaggedTensor Z :=
  wordpiece vocab unk_id <$> word_split s.

Definition strip_marker (w : text) : option text :=
  match w with
  | c1 :: c2 :: w' =>
      if bool_decide (c1 = "#"%char ∧ c2 = "#"%char) then Some w' else None
  | _ => None
  end.

(** Modelled from the spec: the absent piece joiner: "concatenate pieces
    within a word by dropping the continuation marker and removing the
    inter-piece boundary".  A piece is glued to the continuation pieces
    that follow it. *)
Fixpoint merge_pieces (pieces : list text) : list text :=
  match pieces with
  | [] => []
  | p :: pieces' =>
      match merge_pieces pieces' with
      | w :: ws =>
          match strip_marker w with
          | Some w' => (p ++ w') :: ws
          | None => p :: w :: ws
          end
      | [] => [p]
      end
  end.

(** Modelled from the spec: the absent detokenizer: "map each id back to
    its piece via Vocabulary", an id outside the vocabulary being a fatal
    error, then join the pieces into words. *)
Definition detokenize (vocab : list text) (ids : RaggedTensor Z)
    : result (RaggedTensor text) :=
  pieces ← tf.gather vocab ids; Ok (fmap (M := list) merge_pieces pieces).

(** Modelled from the spec: the absent [text.BertTokenizer] over a
    vocabulary, with the id of its unknown token. *)
Definition model (vocab : list text) (unk_id : Z) : BertTokenizer :=
  {| bert_tokenize strings := tokenize vocab unk_id <$> strings;
     bert_detokenize := detokenize vocab |}.

(** Modelled from the spec: the absent constructor of the library
    tokenizer, which loads the vocabulary file: "read lines in order, id =
    line index; fails with CorruptVocabularyError if the file is empty or
    contains duplicate lines".  [unk_id] is the id of the unknown token. *)
Definition new (unk_id : Z) (fs : filesystem) (vocab_path : string)
    : result BertTokenizer :=
  content ← read_text fs vocab_path;
  let lines := splitlines content in
  if bool_decide (lines = [] ∨ ¬ NoDup lines) then Raise CorruptVocabulary
  else Ok (model lines unk_id).

(** Modelled from the spec: greedy decomposition as a relation, for
    stating what the absent loop does: [greedy_step] takes the longest
    matching prefix, [greedy_stuck] reaches a position where no prefix of
    the remaining text is a piece. *)
Definition matches (vocab : list text) (at_start : bool) (rest : text) (n : nat)
    : Prop :=
  (1 ≤ n ≤ length rest)%nat ∧ piece_key at_start (take n rest) ∈ vocab.

Definition greedy_step (vocab : list text) (at_start : bool) (rest : text)
    (n : nat) : Prop :=
  matches vocab at_start rest n ∧
  ∀ m, matches vocab at_start rest m → (m ≤ n)%nat.

Inductive greedy_stuck (vocab : list text) : bool → text → Prop :=
  | stuck_here at_start rest :
      rest ≠ [] →
      (∀ n, ¬ matches vocab at_start rest n) →
      greedy_stuck vocab at_start rest
  | stuck_later at_start rest n :
      greedy_step vocab at_start rest n →
      greedy_stuck vocab false (drop n rest) →
      greedy_stuck vocab at_start rest.

(** The pieces of a decomposed text: the first part as it is when the
    text starts a word, every other part behind the continuation marker. *)
Definition piece_keys (at_start : bool) (parts : list text) : list text :=
  match parts with
  | [] => []
  | part :: parts' => piece_key at_start part :: (app marker <$> parts')
  end.

(** The two kinds of words [word_split] produces. *)
Definition plain_word (w : text) : Prop :=
  w ≠ [] ∧ Forall (λ c, is_boundary c = false) w.

Definition punctuation_word (w : text) : Prop :=
  ∃ c, w = [c] ∧ is_punctuation c = true.

Definition split_word (w : text) : Prop := plain_word w ∨ punctuation_word w.

End WordPiece.

(** ** The configuration and the scenario of the specification *)

(** Modelled from the spec: [config.py] is not among the sources; the
    reserved tokens are "pad, unknown, start, end", spelled as the printed
    vocabulary spells them. *)
Definition default_config : Config :=
  {| RESERVED_TOKENS := str <$> ["[PAD]"; "[UNK]"; "[START]"; "[END]"]%string |}.

(** Modelled from the spec: case folding on texts of ASCII letters, the
    only texts on which the scenario needs [case_fold_utf8]. *)
Definition ascii_case_fold (s : text) : text :=
  (λ c, let n := nat_of_ascii c in
        if bool_decide (65 ≤ n ≤ 90)%nat then ascii_of_nat (n + 32) else c) <$> s.

Definition hello_vocab : list text :=
  str <$> ["[PAD]"; "[UNK]"; "[START]"; "[END]"; "he"; "##llo"; "wor"; "##ld"; "!"]%string.

(** A configuration whose reserved tokens name neither sentinel. *)
Definition config_without_sentinels : Config :=
  {| RESERVED_TOKENS := str <$> ["[PAD]"; "[UNK]"]%string |}.

(** A vocabulary in which "abc" is made of the pieces "a" and "##bc", while
    the longest piece at its start is "ab". *)
Definition greedy_vocab : list text :=
  str <$> ["[PAD]"; "[UNK]"; "[START]"; "[END]"; "ab"; "a"; "##bc"]%string.

(** A tokenizer over [vocab] whose unknown token has id [unk_id]. *)
Definition tokenizer_of (config : Config) (vocab : list text) (unk_id : Z)
    : CustomTokenizer :=
  {| tokenizer := WordPiece.model vocab unk_id;
     _reserved_tokens := RESERVED_TOKENS config;
     vocab := vocab |}.

(** ** The corpus filter and the two vocabulary files *)

(** [non_latin1_regex.search(sentence)] for the pattern [[^\x00-\xFF]], on
    a sentence given by its code points: some character lies above 255. *)
Definition non_latin1_search (sentence : list N) : bool :=
  existsb (λ c, 255 <? c)%N sentence.

(** [filter_sentence(row)]; [config.SENTENCE_MAX_LEN] is a parameter, the
    row is the list of its sentences. *)
Fixpoint filter_sentence (SENTENCE_MAX_LEN : Z) (row : list (list N)) : bool :=
  match row with
  | [] => true
  | sentence :: row' =>
      if bool_decide (SENTENCE_MAX_LEN < Z.of_nat (length sentence)) then false
      else if non_latin1_search sentence then false
      else filter_sentence SENTENCE_MAX_LEN row'
  end.

(** [df.apply(filter_sentence, axis=1)]: the mask, one flag per row.  On
    a frame without rows pandas returns an empty frame and not a mask:
    [None]. *)
Definition apply_filter (SENTENCE_MAX_LEN : Z) (df : list (list (list N)))
    : option (list bool) :=
  match df with
  | [] => None
  | _ :: _ => Some (filter_sentence SENTENCE_MAX_LEN <$> df)
  end.

(** [df[mask]]: the rows whose flag is set, in order. *)
Fixpoint boolean_index {A} (df : list A) (mask : list bool) : list A :=
  match df, mask with
  | row :: df', flag :: mask' =>
      if flag then row :: boolean_index df' mask' else boolean_index df' mask'
  | _, _ => []
  end.

(** [mask.sum()] of a mask of flags: a set flag counts 1. *)
Definition mask_sum (mask : list bool) : nat := sum_list (Nat.b2n <$> mask).

(** [mask = df.apply(filter_sentence, axis=1); df = df[mask].copy()], for a
    frame on which [apply] gives a mask. *)
Definition filter_corpus (SENTENCE_MAX_LEN : Z) (df : list (list (list N)))
    : option (list (list (list N))) :=
  mask ← apply_filter SENTENCE_MAX_LEN df; Some (boolean_index df mask).

(** A vocabulary file whose lines end in CR LF. *)
Definition printed_lines_crlf (vocab : list text) : text :=
  mjoin ((λ token, token ++ [carriage_return; newline]) <$> vocab).

(** * Properties *)

(** ** The error monad *)

Lemma mapM_raises {A B} (f : A → result B) (l : list A) :
  Exists (λ a, raises (f a)) l → raises (mapM f l).
Proof.
  induction 1 as [a l [e He]|a l _ [e IH]]; cbn.
  - rewrite He. by exists e.
  - destruct (f a) as [b|e']; cbn; [|by exists e'].
    rewrite IH. by exists e.
Qed.

(** ** The TensorFlow operations *)

Lemma argmax_from_equal (s : text) (tokens : list text) (best_i : nat)
    (best : bool) (i : nat) :
  tf.argmax_from best_i (Z.b2z best) i (Z.b2z <$> tf.equal tokens s) =
    if best then best_i
    else from_option (λ hit : nat * text, (i + hit.1)%nat) best_i
           (list_find (λ tok, tok = s) tokens).
Proof.
  revert best_i best i.
  induction tokens as [|tok tokens IH]; intros best_i best i.
  { by destruct best. }
  cbn [tf.equal fmap list_fmap tf.argmax_from].
  fold (tf.equal tokens s). cbn [list_find].
  destruct best; cbn [Z.b2z].
  - replace (1 <? _) with false by (by case_bool_decide).
    apply (IH best_i true).
  - case_bool_decide as Heq; cbn [Z.b2z].
    + rewrite (IH i true). rewrite decide_True by done. cbn. lia.
    + rewrite (IH best_i false). rewrite decide_False by done.
      destruct (list_find _ tokens) as [[k tok']|]; cbn; lia.
Qed.

(** The scan [tf.argmax(tf.constant(tokens) == s)]: the first index holding
    [s], and 0 when no element is [s]. *)
Lemma argmax_equal (s : text) (tokens : list text) :
  tokens ≠ [] →
  tf.argmax (tf.equal tokens s) =
    Ok (Z.of_nat (from_option fst 0%nat (list_find (λ tok, tok = s) tokens))).
Proof.
  destruct tokens as [|tok tokens]; [done|]. intros _.
  unfold tf.argmax. cbn [tf.equal fmap list_fmap]. fold (tf.equal tokens s).
  rewrite (argmax_from_equal s tokens 0 (bool_decide (tok = s)) 1).
  cbn [list_find]. case_bool_decide.
  - by rewrite decide_True.
  - rewrite decide_False by done.
    by destruct (list_find _ tokens) as [[k tok']|].
Qed.

Lemma argmax_equal_first (s : text) (tokens : list text) (i : nat) :
  tokens !! i = Some s →
  (∀ j, (j < i)%nat → tokens !! j ≠ Some s) →
  tf.argmax (tf.equal tokens s) = Ok (Z.of_nat i).
Proof.
  intros Hi Hfirst. rewrite argmax_equal by (by intros ->).
  assert (list_find (λ tok, tok = s) tokens = Some (i, s)) as ->; [|done].
  apply list_find_Some. split_and!; [done..|].
  intros j y Hj Hlt ->. by apply (Hfirst j).
Qed.

Lemma argmax_equal_missing (s : text) (tokens : list text) :
  tokens ≠ [] → s ∉ tokens → tf.argmax (tf.equal tokens s) = Ok 0.
Proof.
  intros Hne Hs. rewrite argmax_equal by done.
  assert (list_find (λ tok, tok = s) tokens = None) as ->; [|done].
  apply list_find_None, Forall_forall. by intros tok Htok ->.
Qed.

Lemma concat_rows_fill_l {A} (v : A) (rows : list (list A)) :
  tf.concat_rows (tf.fill (length rows) v) rows = Ok (cons v <$> rows).
Proof.
  unfold tf.fill. induction rows as [|row rows IH]; [done|].
  cbn. by rewrite IH.
Qed.

Lemma concat_rows_fill_r {A} (v : A) (rows : list (list A)) :
  tf.concat_rows rows (tf.fill (length rows) v) = Ok ((λ row, row ++ [v]) <$> rows).
Proof.
  unfold tf.fill. induction rows as [|row rows IH]; [done|].
  cbn. by rewrite IH.
Qed.

Lemma concat3_fill {A} (v w : A) (rows : list (list A)) :
  tf.concat3 (tf.fill (length rows) v) rows (tf.fill (length rows) w) =
    Ok ((λ row, v :: row ++ [w]) <$> rows).
Proof.
  unfold tf.concat3. rewrite concat_rows_fill_l. cbn.
  pose proof (concat_rows_fill_r w (cons v <$> rows)) as H.
  rewrite length_fmap in H. rewrite H. by rewrite <- list_fmap_compose.
Qed.

(** ** Framing *)

Lemma add_start_end_rows (config : Config) (start end_ : Z) (rows : list (list Z)) :
  START config = Ok start → END config = Ok end_ →
  add_start_end config rows = Ok ((λ core, start :: core ++ [end_]) <$> rows).
Proof.
  intros Hs He. unfold add_start_end. rewrite Hs, He. cbn.
  apply concat3_fill.
Qed.

Lemma sentinels_defined (config : Config) :
  RESERVED_TOKENS config ≠ [] →
  ∃ start end_, START config = Ok start ∧ END config = Ok end_.
Proof.
  intros Hne. unfold START, END. rewrite !argmax_equal by done. eauto.
Qed.

(** C2. For every batch of input texts, every row returned by [tokenize]
    is the core row (the flattened ids of the wrapped tokenizer on the
    case-folded text) with the configured start id put in front and the
    configured end id put behind: it begins with the start id, ends with
    the end id, and is two ids longer than its core, which sits unchanged
    in between. *)
Theorem tokenize_framing (config : Config) (case_fold_utf8 : text → text)
    (self : CustomTokenizer) (strings : list text) :
  RESERVED_TOKENS config ≠ [] →
  ∃ start end_ rows,
    START config = Ok start ∧ END config = Ok end_ ∧
    tokenize config case_fold_utf8 self strings = Ok rows ∧
    Forall2
      (λ row core,
         row = start :: core ++ [end_] ∧
         head row = Some start ∧ last row = Some end_ ∧
         length row = (length core + 2)%nat)
      rows
      (tf.merge_dims (bert_tokenize (tokenizer self) (case_fold_utf8 <$> strings))).
Proof.
  intros Hne.
  destruct (sentinels_defined config Hne) as (start & end_ & Hs & He).
  exists start, end_. eexists. split_and!; [done..| |].
  - unfold tokenize. by apply add_start_end_rows.
  - apply Forall2_fmap_l, Forall_Forall2_diag, Forall_forall.
    intros core _. split_and!; [done..| |].
    + by rewrite app_comm_cons, last_snoc.
    + cbn. rewrite length_app. cbn. lia.
Qed.

(** [tokenize_framing] on the scenario of the specification. *)
Lemma tokenize_framing_witness :
  RESERVED_TOKENS default_config ≠ [] ∧
  ∃ start end_ rows,
    START default_config = Ok start ∧ END default_config = Ok end_ ∧
    tokenize default_config ascii_case_fold
      (tokenizer_of default_config hello_vocab 1) [str "hello world!"] = Ok rows ∧
    Forall2
      (λ row core,
         row = start :: core ++ [end_] ∧
         head row = Some start ∧ last row = Some end_ ∧
         length row = (length core + 2)%nat)
      rows
      (tf.merge_dims
         (bert_tokenize (tokenizer (tokenizer_of default_config hello_vocab 1))
            (ascii_case_fold <$> [str "hello world!"]))).
Proof.
  split; [done|].
  apply (tokenize_framing default_config ascii_case_fold
           (tokenizer_of default_config hello_vocab 1) [str "hello world!"]).
  done.
Defined.

Example config_without_sentinels_START :
  START config_without_sentinels = Ok 0.
Proof. reflexivity. Qed.

(** C9. The start and end ids are the index of the first reserved token
    equal to "[START]" (respectively "[END]").  When the (non-empty)
    reserved list holds no "[START]" (respectively no "[END]"), the scan
    yields 0, the id of the first reserved token, without failing, and
    [tokenize] frames every row with 0 in the place of that sentinel. *)
Theorem sentinel_scan (config : Config) :
  RESERVED_TOKENS config ≠ [] →
  let reserved := RESERVED_TOKENS config in
  (∀ i : nat,
     reserved !! i = Some (str "[START]") →
     (∀ j, (j < i)%nat → reserved !! j ≠ Some (str "[START]")) →
     START config = Ok (Z.of_nat i)) ∧
  (∀ i : nat,
     reserved !! i = Some (str "[END]") →
     (∀ j, (j < i)%nat → reserved !! j ≠ Some (str "[END]")) →
     END config = Ok (Z.of_nat i)) ∧
  (str "[START]" ∉ reserved →
     START config = Ok 0 ∧
     ∀ case_fold_utf8 self strings, ∃ end_,
       END config = Ok end_ ∧
       tokenize config case_fold_utf8 self strings =
         Ok ((λ core, 0 :: core ++ [end_]) <$>
               tf.merge_dims
                 (bert_tokenize (tokenizer self) (case_fold_utf8 <$> strings)))) ∧
  (str "[END]" ∉ reserved →
     END config = Ok 0 ∧
     ∀ case_fold_utf8 self strings, ∃ start,
       START config = Ok start ∧
       tokenize config case_fold_utf8 self strings =
         Ok ((λ core, start :: core ++ [0]) <$>
               tf.merge_dims
                 (bert_tokenize (tokenizer self) (case_fold_utf8 <$> strings)))).
Proof.
  intros Hne reserved.
  destruct (sentinels_defined config Hne) as (start & end_ & Hs & He).
  split_and!.
  - intros i Hi Hfirst. by apply argmax_equal_first.
  - intros i Hi Hfirst. by apply argmax_equal_first.
  - intros Hmiss.
    assert (START config = Ok 0) as H0 by (by apply argmax_equal_missing).
    split; [done|]. intros case_fold_utf8 self strings.
    exists end_. split; [done|]. unfold tokenize. by apply add_start_end_rows.
  - intros Hmiss.
    assert (END config = Ok 0) as H0 by (by apply argmax_equal_missing).
    split; [done|]. intros case_fold_utf8 self strings.
    exists start. split; [done|]. unfold tokenize. by apply add_start_end_rows.
Qed.

(** [sentinel_scan] on a configuration without sentinels, where both ids
    are 0, and on the configuration of the notebook, where they are 2
    and 3. *)
Lemma sentinel_scan_witness :
  RESERVED_TOKENS config_without_sentinels ≠ [] ∧
  START config_without_sentinels = Ok 0 ∧ END config_without_sentinels = Ok 0 ∧
  tokenize config_without_sentinels ascii_case_fold
    (tokenizer_of config_without_sentinels hello_vocab 1)
    [str "hello world!"] = Ok [[0; 4; 5; 6; 7; 8; 0]] ∧
  START default_config = Ok 2 ∧ END default_config = Ok 3.
Proof.
  set (config := config_without_sentinels).
  assert (RESERVED_TOKENS config ≠ []) as Hne by done.
  assert (RESERVED_TOKENS default_config ≠ []) as Hne' by done.
  destruct (sentinel_scan config Hne) as (_ & _ & Hstart & Hend).
  destruct (sentinel_scan default_config Hne') as (Hs & He & _ & _).
  assert (str "[START]" ∉ RESERVED_TOKENS config) as Hs0
    by (apply (bool_decide_unpack _); vm_compute; exact I).
  assert (str "[END]" ∉ RESERVED_TOKENS config) as He0
    by (apply (bool_decide_unpack _); vm_compute; exact I).
  split_and!; [done | apply Hstart, Hs0 | apply Hend, He0 | | |].
  - destruct (Hstart Hs0) as [_ Htok].
    destruct (Htok ascii_case_fold (tokenizer_of config hello_vocab 1)
                [str "hello world!"]) as (end_ & Hend_ & ->).
    rewrite (proj1 (Hend He0)) in Hend_. injection Hend_ as <-.
    reflexivity.
  - apply (Hs 2%nat); [reflexivity|].
    intros j Hj. destruct j as [|[|j]]; [done | done | lia].
  - apply (He 3%nat); [reflexivity|].
    intros j Hj. destruct j as [|[|[|j]]]; [done | done | done | lia].
Defined.

(** ** Cleanup *)

Lemma regex_full_match_literals_true (alts : list text) (cell : text) :
  tf.regex_full_match_literals alts cell = true ↔
  cell ∈ alts ∨ (alts = [] ∧ cell = []).
Proof.
  unfold tf.regex_full_match_literals. destruct alts as [|alt alts].
  - rewrite bool_decide_eq_true. split; [auto | intros [H|[_ H]]; [|done]].
    by apply elem_of_nil in H.
  - rewrite bool_decide_eq_true. split; [auto | by intros [H|[H _]]].
Qed.

Lemma elem_of_bad_tokens (reserved_tokens : list text) (tok : text) :
  tok ∈ bad_tokens reserved_tokens ↔ tok ∈ reserved_tokens ∧ tok ≠ str "[UNK]".
Proof. unfold bad_tokens. rewrite list_elem_of_filter. tauto. Qed.

Lemma elem_of_kept_cells (reserved_tokens : list text) (row : list text) (cell : text) :
  cell ∈ kept_cells reserved_tokens row ↔
  cell ∈ row ∧
  tf.regex_full_match_literals (bad_tokens reserved_tokens) cell = false.
Proof.
  unfold kept_cells, tf.boolean_mask. rewrite list_elem_of_filter.
  rewrite negb_true_iff. tauto.
Qed.

Lemma kept_cells_sublist (reserved_tokens : list text) (row : list text) :
  kept_cells reserved_tokens row `sublist_of` row.
Proof. apply sublist_filter. Qed.

Lemma kept_cells_not_reserved (reserved_tokens : list text) (row : list text)
    (cell : text) :
  cell ∈ kept_cells reserved_tokens row →
  cell ∈ reserved_tokens → cell = str "[UNK]".
Proof.
  rewrite elem_of_kept_cells. intros [_ Hbad] Hres.
  destruct (decide (cell = str "[UNK]")) as [|Hne]; [done|].
  assert (tf.regex_full_match_literals (bad_tokens reserved_tokens) cell = true)
    as Htrue; [|congruence].
  apply regex_full_match_literals_true. left. by apply elem_of_bad_tokens.
Qed.

Lemma unknown_not_bad (reserved_tokens : list text) :
  tf.regex_full_match_literals (bad_tokens reserved_tokens) (str "[UNK]") = false.
Proof.
  apply not_true_is_false. rewrite regex_full_match_literals_true.
  intros [H|[_ H]]; [|done]. apply elem_of_bad_tokens in H. by destruct H.
Qed.

(** Every occurrence of "[UNK]" survives: the "[UNK]" cells of a row and of
    what is kept of it are the same list. *)
Lemma kept_cells_unknown (reserved_tokens : list text) (row : list text) :
  filter (λ cell, cell = str "[UNK]") (kept_cells reserved_tokens row) =
  filter (λ cell, cell = str "[UNK]") row.
Proof.
  unfold kept_cells, tf.boolean_mask.
  induction row as [|cell row IH]; [done|].
  rewrite !filter_cons. destruct (decide (cell = str "[UNK]")) as [->|Hne].
  - rewrite unknown_not_bad. cbn [negb]. rewrite decide_True by done.
    rewrite filter_cons, decide_True by done. by rewrite IH.
  - case_decide; [|done]. by rewrite filter_cons, decide_False.
Qed.

Lemma kept_cells_all_bad (reserved_tokens : list text) (row : list text) :
  Forall (λ cell, cell ∈ reserved_tokens ∧ cell ≠ str "[UNK]") row →
  kept_cells reserved_tokens row = [].
Proof.
  intros Hall. unfold kept_cells, tf.boolean_mask.
  induction Hall as [|cell row Hcell _ IH]; [done|].
  rewrite filter_cons, decide_False; [done|].
  assert (tf.regex_full_match_literals (bad_tokens reserved_tokens) cell = true)
    as ->; [|done].
  apply regex_full_match_literals_true. left. by apply elem_of_bad_tokens.
Qed.

Lemma cleanup_text_all_bad (reserved_tokens : list text) (token_txt : list (list text)) :
  Forall (Forall (λ cell, cell ∈ reserved_tokens ∧ cell ≠ str "[UNK]")) token_txt →
  cleanup_text reserved_tokens token_txt = replicate (length token_txt) [].
Proof.
  unfold cleanup_text. induction 1 as [|row rows Hrow _ IH]; [done|].
  cbn. rewrite kept_cells_all_bad by done. cbn. by f_equal.
Qed.

(** C3, as amended.  Whatever rows of words the wrapped detokenizer
    returns for the ids, [detokenize] outputs, row by row, the single-space
    join of the words it keeps, where: the kept words are a subsequence of
    the row's words (their relative order is preserved), no kept word is a
    reserved token other than "[UNK]", and the "[UNK]" words are all kept.
    The filter works on words, after pieces have been merged. *)
Theorem detokenize_cleanup (self : CustomTokenizer) (tokenized : list (list Z))
    (words : list (list text)) :
  bert_detokenize (tokenizer self) tokenized = Ok words →
  ∃ kept : list (list text),
    detokenize self tokenized = Ok (tf.reduce_join (str " ") <$> kept) ∧
    Forall2
      (λ kept_row row,
         kept_row `sublist_of` row ∧
         (∀ cell, cell ∈ kept_row →
            cell ∈ _reserved_tokens self → cell = str "[UNK]") ∧
         filter (λ cell, cell = str "[UNK]") kept_row =
           filter (λ cell, cell = str "[UNK]") row)
      kept words.
Proof.
  intros Hwords. exists (kept_cells (_reserved_tokens self) <$> words). split.
  - unfold detokenize. by rewrite Hwords.
  - apply Forall2_fmap_l, Forall_Forall2_diag, Forall_forall.
    intros row _. split_and!.
    + apply kept_cells_sublist.
    + intros cell. apply kept_cells_not_reserved.
    + apply kept_cells_unknown.
Qed.

(** C10. When the words the wrapped detokenizer returns for a row of ids
    are all reserved tokens other than "[UNK]" (as for a row holding the
    start and end sentinels only), [detokenize] does not fail and returns
    the empty string for that row. *)
Theorem detokenize_only_reserved (self : CustomTokenizer)
    (tokenized : list (list Z)) (words : list (list text)) :
  bert_detokenize (tokenizer self) tokenized = Ok words →
  Forall (Forall (λ cell, cell ∈ _reserved_tokens self ∧ cell ≠ str "[UNK]")) words →
  detokenize self tokenized = Ok (replicate (length words) []).
Proof.
  intros Hwords Hall. unfold detokenize. rewrite Hwords. cbn.
  by rewrite cleanup_text_all_bad.
Qed.

(** [detokenize_cleanup] on a row with both sentinels, a word and an
    unknown token. *)
Lemma detokenize_cleanup_witness :
  bert_detokenize (tokenizer (tokenizer_of default_config hello_vocab 1))
    [[2; 4; 5; 1; 3]] =
    Ok [str <$> ["[START]"; "hello"; "[UNK]"; "[END]"]%string] ∧
  ∃ kept : list (list text),
    detokenize (tokenizer_of default_config hello_vocab 1) [[2; 4; 5; 1; 3]] =
      Ok (tf.reduce_join (str " ") <$> kept) ∧
    Forall2
      (λ kept_row row,
         kept_row `sublist_of` row ∧
         (∀ cell, cell ∈ kept_row →
            cell ∈ _reserved_tokens (tokenizer_of default_config hello_vocab 1) →
            cell = str "[UNK]") ∧
         filter (λ cell, cell = str "[UNK]") kept_row =
           filter (λ cell, cell = str "[UNK]") row)
      kept [str <$> ["[START]"; "hello"; "[UNK]"; "[END]"]%string].
Proof.
  split; [reflexivity|].
  apply (detokenize_cleanup (tokenizer_of default_config hello_vocab 1)
           [[2; 4; 5; 1; 3]]).
  reflexivity.
Defined.

(** C3, the claim as stated fails.  Id 0 is the reserved token "[PAD]";
    followed by the continuation piece "##llo" (id 5) it is merged into
    the word "[PAD]llo", which is no reserved word, so the reserved token
    stays in the output string. *)
Lemma detokenize_keeps_merged_reserved_piece :
  lookup (tokenizer_of default_config hello_vocab 1) [[0]] = Ok [[str "[PAD]"]] ∧
  str "[PAD]" ∈ bad_tokens (RESERVED_TOKENS default_config) ∧
  detokenize (tokenizer_of default_config hello_vocab 1) [[0; 5]] =
    Ok [str "[PAD]llo"] ∧
  str "[PAD]" `prefix_of` str "[PAD]llo".
Proof.
  split_and!.
  - reflexivity.
  - apply (bool_decide_unpack _). vm_compute. exact I.
  - reflexivity.
  - by exists (str "llo").
Qed.

(** [detokenize_only_reserved] on the framing of an empty core. *)
Lemma detokenize_only_reserved_witness :
  bert_detokenize (tokenizer (tokenizer_of default_config hello_vocab 1)) [[2; 3]] =
    Ok [str <$> ["[START]"; "[END]"]%string] ∧
  Forall
    (Forall (λ cell,
       cell ∈ _reserved_tokens (tokenizer_of default_config hello_vocab 1) ∧
       cell ≠ str "[UNK]"))
    [str <$> ["[START]"; "[END]"]%string] ∧
  detokenize (tokenizer_of default_config hello_vocab 1) [[2; 3]] = Ok [[]].
Proof.
  assert (Forall
    (Forall (λ cell,
       cell ∈ _reserved_tokens (tokenizer_of default_config hello_vocab 1) ∧
       cell ≠ str "[UNK]"))
    [str <$> ["[START]"; "[END]"]%string]) as Hall.
  { repeat constructor; try discriminate;
      apply (bool_decide_unpack _); vm_compute; exact I. }
  split_and!; [reflexivity | exact Hall |].
  apply (detokenize_only_reserved (tokenizer_of default_config hello_vocab 1)
           [[2; 3]] [str <$> ["[START]"; "[END]"]%string]); [reflexivity | exact Hall].
Defined.

(** ** The vocabulary file *)

Example splitlines_terminators :
  splitlines (str "a" ++ [carriage_return; newline] ++ str "b" ++
              [newline; carriage_return] ++ str "c" ++ [newline]) =
    [str "a"; str "b"; []; str "c"].
Proof. reflexivity. Qed.

Example splitlines_blank_line : splitlines [newline] = [[]].
Proof. reflexivity. Qed.

Lemma splitlines_line (tok rest : text) :
  Forall (λ c, is_line_boundary c = false) tok →
  splitlines (tok ++ newline :: rest) = tok :: splitlines rest.
Proof.
  induction 1 as [|c tok Hc _ IH].
  - cbn [app splitlines].
    replace (is_line_boundary newline) with true by reflexivity.
    destruct rest as [|c' rest]; [done|].
    by rewrite bool_decide_eq_false_2 by (by intros [? _]).
  - cbn [app splitlines]. by rewrite Hc, IH.
Qed.

(** What [write_vocab_file] prints is read back line for line. *)
Lemma splitlines_printed_lines (vocab : list text) :
  Forall (Forall (λ c, is_line_boundary c = false)) vocab →
  splitlines (printed_lines vocab) = vocab.
Proof.
  unfold printed_lines. induction 1 as [|tok vocab Htok _ IH]; [done|].
  cbn. rewrite <- app_assoc. cbn. rewrite splitlines_line by done.
  by f_equal.
Qed.

Lemma gather1_lookup {A} (params : list A) (N : nat) (p : A) :
  params !! N = Some p → tf.gather1 params (Z.of_nat N) = Ok p.
Proof.
  intros HN. unfold tf.gather1.
  rewrite bool_decide_eq_true_2 by lia. by rewrite Nat2Z.id, HN.
Qed.

Lemma mapM_singleton {A B} (f : A → result B) (a : A) (b : B) :
  f a = Ok b → mapM f [a] = Ok [b].
Proof. intros H. cbn. by rewrite H. Qed.






Example init_rejects_repeated_line :
  init default_config (WordPiece.new 1)
    (write_vocab_file "vocab.txt" [str "he"; str "he"] ∅) "vocab.txt" =
    Raise CorruptVocabulary.
Proof. reflexivity. Qed.

Example init_rejects_empty_file :
  init default_config (WordPiece.new 1) {["vocab.txt"%string := []]} "vocab.txt" =
    Raise CorruptVocabulary.
Proof. reflexivity. Qed.

(** ** Out-of-range ids *)

Lemma mapM_Raise_inv {A B} (f : A → result B) (l : list A) (e : exn) :
  mapM f l = Raise e → ∃ a, a ∈ l ∧ f a = Raise e.
Proof.
  induction l as [|a l IH]; [done|]. cbn.
  destruct (f a) as [b|e'] eqn:Hfa; cbn.
  - destruct (mapM f l) as [bs|e'']; cbn; [done|].
    intros [= ->]. destruct IH as (a' & Hin & Hf); [done|].
    exists a'. split; [by right | done].
  - intros [= ->]. exists a. split; [by left | done].
Qed.

Lemma gather1_Raise_inv {A} (params : list A) (id : Z) (e : exn) :
  tf.gather1 params id = Raise e →
  e = IndexOutOfRange id (length params) ∧
  (id < 0 ∨ Z.of_nat (length params) ≤ id).
Proof.
  unfold tf.gather1. case_bool_decide as Hid.
  - destruct (params !! Z.to_nat id) as [p|] eqn:Hp; [done|].
    intros [= <-]. split; [done|]. right.
    apply lookup_ge_None in Hp. lia.
  - intros [= <-]. split; [done|]. left. lia.
Qed.

Lemma gather1_out_of_range {A} (params : list A) (id : Z) :
  id < 0 ∨ Z.of_nat (length params) ≤ id →
  tf.gather1 params id = Raise (IndexOutOfRange id (length params)).
Proof.
  intros Hid. unfold tf.gather1. case_bool_decide; [|done].
  rewrite (proj2 (lookup_ge_None params (Z.to_nat id))); [done | lia].
Qed.

Lemma gather_out_of_range {A} (params : list A) (ids : list (list Z)) :
  Exists (Exists (λ id, id < 0 ∨ Z.of_nat (length params) ≤ id)) ids →
  ∃ id, (id < 0 ∨ Z.of_nat (length params) ≤ id) ∧
        tf.gather params ids = Raise (IndexOutOfRange id (length params)).
Proof.
  intros Hex. unfold tf.gather.
  destruct (mapM_raises (mapM (tf.gather1 params)) ids) as [e He].
  { eapply Exists_impl; [exact Hex|]. intros row Hrow. cbn beta in Hrow.
    apply mapM_raises. eapply Exists_impl; [exact Hrow|].
    intros id Hid. cbn beta in Hid. eexists. by apply gather1_out_of_range. }
  rewrite He. apply mapM_Raise_inv in He as (row & _ & Hrow).
  apply mapM_Raise_inv in Hrow as (id & _ & Hid).
  apply gather1_Raise_inv in Hid as [-> Hid]. by exists id.
Qed.

(** ** Greedy decomposition *)

Lemma piece_id_None (vocab : list text) (piece : text) :
  WordPiece.piece_id vocab piece = None ↔ piece ∉ vocab.
Proof.
  unfold WordPiece.piece_id. rewrite fmap_None, list_find_None, Forall_forall.
  split; [intros H Hin; by apply (H piece) | intros H p Hp ->; done].
Qed.

Lemma piece_id_Some (vocab : list text) (piece : text) (id : Z) :
  WordPiece.piece_id vocab piece = Some id →
  0 ≤ id ∧ vocab !! Z.to_nat id = Some piece.
Proof.
  unfold WordPiece.piece_id. intros ([i p] & Hfind & ->)%fmap_Some.
  apply list_find_Some in Hfind as (Hi & -> & _). cbn.
  split; [lia | by rewrite Nat2Z.id].
Qed.

Lemma piece_id_is_Some (vocab : list text) (piece : text) :
  piece ∈ vocab → is_Some (WordPiece.piece_id vocab piece).
Proof.
  intros Hin. destruct (WordPiece.piece_id vocab piece) eqn:H; [done|].
  by apply piece_id_None in H.
Qed.

Lemma longest_match_None (vocab : list text) (at_start : bool) (n : nat) (rest : text) :
  WordPiece.longest_match vocab at_start n rest = None ↔
  ∀ m, (1 ≤ m ≤ n)%nat → WordPiece.piece_key at_start (take m rest) ∉ vocab.
Proof.
  induction n as [|n IH]; cbn [WordPiece.longest_match].
  - split; [intros _ m Hm; lia | done].
  - destruct (WordPiece.piece_id vocab _) as [id|] eqn:Hid.
    + split; [done|]. intros H. exfalso.
      assert (WordPiece.piece_id vocab
                (WordPiece.piece_key at_start (take (S n) rest)) = None) as Hnone
        by (apply piece_id_None, H; lia).
      congruence.
    + rewrite IH. apply piece_id_None in Hid. split.
      * intros H m Hm. destruct (decide (m = S n)) as [->|]; [done|].
        apply H. lia.
      * intros H m Hm. apply H. lia.
Qed.

Lemma longest_match_Some (vocab : list text) (at_start : bool) (n : nat)
    (rest : text) (id : Z) (rest' : text) :
  WordPiece.longest_match vocab at_start n rest = Some (id, rest') →
  ∃ m, (1 ≤ m ≤ n)%nat ∧ rest' = drop m rest ∧
       WordPiece.piece_id vocab (WordPiece.piece_key at_start (take m rest)) = Some id ∧
       ∀ m', (m < m' ≤ n)%nat →
             WordPiece.piece_key at_start (take m' rest) ∉ vocab.
Proof.
  induction n as [|n IH]; cbn [WordPiece.longest_match]; [done|].
  destruct (WordPiece.piece_id vocab _) as [id'|] eqn:Hid.
  - intros [= <- <-]. exists (S n). split_and!; [lia.. | done | done | intros; lia].
  - intros (m & Hm & -> & Hpiece & Hmax)%IH. exists m.
    split_and!; [lia.. | done | done |].
    intros m' Hm'. destruct (decide (m' = S n)) as [->|].
    + by apply piece_id_None.
    + apply Hmax. lia.
Qed.

(** The function takes the step of the relation. *)
Lemma longest_match_greedy_step (vocab : list text) (at_start : bool)
    (rest : text) (n : nat) :
  WordPiece.greedy_step vocab at_start rest n →
  ∃ id, WordPiece.longest_match vocab at_start (length rest) rest =
          Some (id, drop n rest).
Proof.
  intros [[Hn Hin] Hmax].
  destruct (WordPiece.longest_match vocab at_start (length rest) rest)
    as [[id rest']|] eqn:Hlm.
  - apply longest_match_Some in Hlm as (m & Hm & -> & Hid & Hnone).
    exists id. repeat f_equal.
    assert (m ≤ n)%nat.
    { apply Hmax. split; [done|]. apply piece_id_Some in Hid as [_ Hid].
      by eapply list_elem_of_lookup_2. }
    destruct (decide (m = n)) as [|Hne]; [done|].
    exfalso. apply (Hnone n); [lia | done].
  - exfalso. eapply longest_match_None in Hlm; [|exact Hn]. done.
Qed.

Lemma greedy_stuck_decompose (vocab : list text) (at_start : bool) (rest : text) :
  WordPiece.greedy_stuck vocab at_start rest →
  ∀ fuel, WordPiece.decompose fuel vocab at_start rest = None.
Proof.
  induction 1 as [at_start rest Hne Hnone|at_start rest n Hstep _ IH];
    intros fuel.
  - destruct rest as [|c rest]; [done|]. destruct fuel as [|fuel]; [done|].
    cbn [WordPiece.decompose].
    assert (WordPiece.longest_match vocab at_start (length (c :: rest)) (c :: rest)
            = None) as ->; [|done].
    apply longest_match_None. intros m Hm Hin. by apply (Hnone m).
  - destruct (longest_match_greedy_step _ _ _ _ Hstep) as [id Hlm].
    destruct Hstep as [[Hn _] _].
    destruct rest as [|c rest]; [cbn in Hn; lia|].
    destruct fuel as [|fuel]; [done|].
    cbn [WordPiece.decompose]. rewrite Hlm. by rewrite IH.
Qed.

(** Fuel as long as the text never runs out: a decomposition that fails
    has reached a position with no match. *)
Lemma decompose_None_stuck (vocab : list text) (fuel : nat) (at_start : bool)
    (rest : text) :
  (length rest ≤ fuel)%nat →
  WordPiece.decompose fuel vocab at_start rest = None →
  WordPiece.greedy_stuck vocab at_start rest.
Proof.
  revert at_start rest. induction fuel as [|fuel IH]; intros at_start rest Hlen.
  - destruct rest; [done | cbn in Hlen; lia].
  - destruct rest as [|c rest]; [done|]. cbn [WordPiece.decompose].
    destruct (WordPiece.longest_match vocab at_start _ _) as [[id rest']|] eqn:Hlm.
    + apply longest_match_Some in Hlm as (m & Hm & -> & Hid & Hnone).
      destruct (WordPiece.decompose fuel vocab false _) eqn:Hdec; [done|].
      intros _. apply (WordPiece.stuck_later vocab at_start (c :: rest) m).
      * split.
        -- split; [done|]. apply piece_id_Some in Hid as [_ Hid].
           by eapply list_elem_of_lookup_2.
        -- intros m' [Hm' Hin]. destruct (decide (m' ≤ m)%nat); [done|].
           exfalso. apply (Hnone m'); [lia | done].
      * apply IH; [|done]. rewrite length_drop. cbn in *. lia.
    + intros _. apply WordPiece.stuck_here; [done|].
      intros m [Hm Hin]. eapply longest_match_None in Hlm; [|exact Hm]. done.
Qed.

Lemma wordpiece_stuck (vocab : list text) (unk_id : Z) (word : text) :
  WordPiece.greedy_stuck vocab true word →
  WordPiece.wordpiece vocab unk_id word = [unk_id].
Proof.
  intros Hstuck. unfold WordPiece.wordpiece.
  by rewrite greedy_stuck_decompose.
Qed.

(** C4. A word on which greedy longest-match decomposition gets stuck
    (at the first or at any later position, no prefix of the remaining
    text down to a single character is a vocabulary piece) is tokenized to
    the unknown id alone; in the row [tokenize] returns, the ids of the
    words before and after it surround exactly that one id, and [tokenize]
    returns a row instead of raising. *)
Theorem unknown_fallback (config : Config) (case_fold_utf8 : text → text)
    (vocab : list text) (unk_id : Z) (s : text)
    (before : list text) (word : text) (after : list text) :
  RESERVED_TOKENS config ≠ [] →
  WordPiece.word_split (case_fold_utf8 s) = before ++ word :: after →
  WordPiece.greedy_stuck vocab true word →
  WordPiece.wordpiece vocab unk_id word = [unk_id] ∧
  ∃ start end_,
    START config = Ok start ∧ END config = Ok end_ ∧
    tokenize config case_fold_utf8 (tokenizer_of config vocab unk_id) [s] =
      Ok [start ::
            (mjoin (WordPiece.wordpiece vocab unk_id <$> before) ++
             [unk_id] ++
             mjoin (WordPiece.wordpiece vocab unk_id <$> after)) ++
            [end_]].
Proof.
  intros Hne Hsplit Hstuck.
  pose proof (wordpiece_stuck vocab unk_id word Hstuck) as Hunk.
  split; [done|].
  destruct (sentinels_defined config Hne) as (start & end_ & Hs & He).
  exists start, end_. split_and!; [done..|].
  unfold tokenize. rewrite (add_start_end_rows config start end_) by done.
  cbn. unfold WordPiece.tokenize. rewrite Hsplit.
  rewrite fmap_app, fmap_cons, Hunk, join_app. by cbn.
Qed.

(** [unknown_fallback] on "Helloo world": "he" and "##llo" match, no piece
    matches the remaining "o". *)
Lemma unknown_fallback_witness :
  RESERVED_TOKENS default_config ≠ [] ∧
  WordPiece.word_split (ascii_case_fold (str "Helloo world")) =
    [] ++ str "helloo" :: [str "world"] ∧
  WordPiece.greedy_stuck hello_vocab true (str "helloo") ∧
  tokenize default_config ascii_case_fold
    (tokenizer_of default_config hello_vocab 1) [str "Helloo world"] =
    Ok [[2; 1; 6; 7; 3]].
Proof.
  assert (WordPiece.greedy_stuck hello_vocab true (str "helloo")) as Hstuck.
  { apply (decompose_None_stuck hello_vocab 6); [cbn; lia | reflexivity]. }
  split_and!; [done | reflexivity | exact Hstuck |].
  destruct (unknown_fallback default_config ascii_case_fold hello_vocab 1
              (str "Helloo world") [] (str "helloo") [str "world"])
    as (_ & start & end_ & Hs & He & ->); [done | reflexivity | exact Hstuck |].
  injection Hs as <-. injection He as <-. reflexivity.
Defined.

(** [lookup] hands the ids to [tf.gather] as they are, without a bound
    check or a default of its own: an id outside the vocabulary makes the
    gather fail. *)
Lemma lookup_out_of_range (self : CustomTokenizer) (ids : list (list Z)) :
  Exists (Exists (λ id, id < 0 ∨ get_vocab_size self ≤ id)) ids →
  ∃ id, (id < 0 ∨ get_vocab_size self ≤ id) ∧
        lookup self ids = Raise (IndexOutOfRange id (length (vocab self))).
Proof. apply gather_out_of_range. Qed.

(** C1. With the vocabulary "[PAD]", "[UNK]", "[START]", "[END]", "he",
    "##llo", "wor", "##ld", "!" (ids 0 to 8 in this order), tokenizing
    "hello world!" gives the ids 2, 4, 5, 6, 7, 8, 3, and detokenizing
    these ids gives "hello world !". *)
Theorem hello_world_scenario :
  init default_config (WordPiece.new 1)
    (write_vocab_file "vocab.txt" hello_vocab ∅) "vocab.txt" =
    Ok (tokenizer_of default_config hello_vocab 1) ∧
  WordPiece.piece_id hello_vocab (str "[UNK]") = Some 1 ∧
  lookup (tokenizer_of default_config hello_vocab 1) [[0; 1; 2; 3; 4; 5; 6; 7; 8]] =
    Ok [hello_vocab] ∧
  WordPiece.word_split (ascii_case_fold (str "hello world!")) =
    [str "hello"; str "world"; str "!"] ∧
  tokenize default_config ascii_case_fold
    (tokenizer_of default_config hello_vocab 1) [str "hello world!"] =
    Ok [[2; 4; 5; 6; 7; 8; 3]] ∧
  detokenize (tokenizer_of default_config hello_vocab 1) [[2; 4; 5; 6; 7; 8; 3]] =
    Ok [str "hello world !"].
Proof. split_and!; [reflexivity | vm_compute; reflexivity ..]. Qed.

(** ** Round trip *)

Lemma word_split_shape (s : text) :
  Forall WordPiece.split_word (WordPiece.word_split s) ∧
  ∀ c s', s = c :: s' → WordPiece.is_boundary c = false →
    ∃ w ws, WordPiece.word_split s = w :: ws ∧ WordPiece.plain_word w.
Proof.
  induction s as [|c s [IHall IHhead]]; [by split|].
  cbn [WordPiece.word_split].
  destruct (WordPiece.is_whitespace c) eqn:Hws.
  { split; [done|]. intros ? ? [= <- <-]. unfold WordPiece.is_boundary.
    by rewrite Hws. }
  destruct (WordPiece.is_punctuation c) eqn:Hp.
  { split.
    - constructor; [|done]. right. by exists c.
    - intros ? ? [= <- <-]. unfold WordPiece.is_boundary.
      by rewrite Hws, Hp. }
  assert (WordPiece.is_boundary c = false) as Hc
    by (unfold WordPiece.is_boundary; by rewrite Hws, Hp).
  assert (WordPiece.plain_word [c]) as Hone by (split; [done | by constructor]).
  destruct s as [|c' s'].
  { split; [constructor; [by left | done]|].
    intros ? ? _ _. by exists [c], []. }
  destruct (WordPiece.is_boundary c') eqn:Hc'.
  { split; [constructor; [by left | done]|].
    intros ? ? _ _. by eexists [c], _. }
  destruct (IHhead c' s' eq_refl Hc') as (w & ws & Hsplit & Hw0 & Hw).
  rewrite Hsplit in IHall |- *.
  assert (WordPiece.plain_word (c :: w)) as Hcw by (split; [done | by constructor]).
  split.
  - constructor; [by left | by inversion IHall].
  - intros ? ? _ _. by exists (c :: w), ws.
Qed.

Lemma word_split_words (s : text) :
  Forall WordPiece.split_word (WordPiece.word_split s).
Proof. apply word_split_shape. Qed.

Lemma hash_is_boundary : WordPiece.is_boundary "#" = true.
Proof. reflexivity. Qed.

Lemma bracket_is_boundary : WordPiece.is_boundary "[" = true.
Proof. reflexivity. Qed.

(** No word starts with the continuation marker. *)
Lemma split_word_no_marker (w : text) :
  WordPiece.split_word w → WordPiece.strip_marker w = None.
Proof.
  intros [[_ Hw]|(c & -> & _)]; [|done].
  destruct w as [|c1 [|c2 w]]; [done..|]. cbn.
  case_bool_decide as H; [|done]. destruct H as [-> _].
  inversion Hw as [|? ? Hc _]. by rewrite hash_is_boundary in Hc.
Qed.

(** No word is a reserved token of the configuration other than "[UNK]". *)
Lemma split_word_not_bad (w : text) :
  WordPiece.split_word w →
  tf.regex_full_match_literals (bad_tokens (RESERVED_TOKENS default_config)) w = false.
Proof.
  intros Hw. apply not_true_is_false. rewrite regex_full_match_literals_true.
  intros [Hin|[Hnil _]]; [|done].
  assert (∃ w', w = "["%char :: w' ∧ w' ≠ []) as (w' & -> & Hw').
  { change (bad_tokens (RESERVED_TOKENS default_config))
      with (str <$> ["[PAD]"; "[START]"; "[END]"]%string) in Hin.
    cbn [fmap list_fmap] in Hin.
    repeat (apply elem_of_cons in Hin as [->|Hin];
            [eexists; split; [reflexivity | done]|]).
    by apply elem_of_nil in Hin. }
  destruct Hw as [[_ Hw]|(c & [= _ ->] & _)]; [|done].
  inversion Hw as [|? ? Hc _]. by rewrite bracket_is_boundary in Hc.
Qed.

Lemma mjoin_cons {A} (x : list A) (l : list (list A)) :
  mjoin (x :: l) = x ++ mjoin l.
Proof. reflexivity. Qed.

Lemma mjoin_singleton {A} (x : list A) : mjoin [x] = x.
Proof. cbn. apply app_nil_r. Qed.

Lemma mapM_app_Ok {A B} (f : A → result B) (l1 l2 : list A) (k1 k2 : list B) :
  mapM f l1 = Ok k1 → mapM f l2 = Ok k2 → mapM f (l1 ++ l2) = Ok (k1 ++ k2).
Proof.
  revert k1. induction l1 as [|a l1 IH]; intros k1; cbn.
  - by intros [= <-].
  - destruct (f a) as [b|]; cbn; [|done].
    destruct (mapM f l1) as [bs|] eqn:Hbs; cbn; [|done].
    intros [= <-] H2. by rewrite (IH bs eq_refl H2).
Qed.

Lemma gather1_piece_id (vocab : list text) (piece : text) (id : Z) :
  WordPiece.piece_id vocab piece = Some id → tf.gather1 vocab id = Ok piece.
Proof.
  intros [Hid Hlook]%piece_id_Some. unfold tf.gather1.
  by rewrite bool_decide_eq_true_2, Hlook.
Qed.

(** A decomposition that succeeds cuts the text into non-empty parts whose
    pieces are what the ids stand for. *)
Lemma decompose_Some (vocab : list text) (fuel : nat) (at_start : bool)
    (rest : text) (ids : list Z) :
  WordPiece.decompose fuel vocab at_start rest = Some ids →
  ∃ parts : list text,
    mjoin parts = rest ∧
    mapM (tf.gather1 vocab) ids = Ok (WordPiece.piece_keys at_start parts).
Proof.
  revert at_start rest ids.
  induction fuel as [|fuel IH]; intros at_start rest ids.
  - destruct rest; [|done]. intros [= <-]. by exists [].
  - destruct rest as [|c rest]; [intros [= <-]; by exists []|].
    cbn [WordPiece.decompose].
    destruct (WordPiece.longest_match vocab at_start _ _) as [[id rest']|] eqn:Hlm;
      [|done].
    apply longest_match_Some in Hlm as (m & Hm & -> & Hid & _).
    destruct (WordPiece.decompose fuel vocab false _) as [ids'|] eqn:Hdec; [|done].
    cbn. intros [= <-].
    destruct (IH _ _ _ Hdec) as (parts & Hjoin & Hpieces).
    exists (take m (c :: rest) :: parts). split.
    + rewrite mjoin_cons, Hjoin. apply take_drop.
    + cbn [mapM]. rewrite (gather1_piece_id _ _ _ Hid). cbn.
      rewrite Hpieces. cbn. do 2 f_equal. by destruct parts.
Qed.

Lemma strip_marker_app (w : text) :
  WordPiece.strip_marker (WordPiece.marker ++ w) = Some w.
Proof. reflexivity. Qed.

Lemma merge_pieces_marked (parts tail : list text) :
  (∀ w ws, WordPiece.merge_pieces tail = w :: ws → WordPiece.strip_marker w = None) →
  WordPiece.merge_pieces ((app WordPiece.marker <$> parts) ++ tail) =
    match parts with
    | [] => WordPiece.merge_pieces tail
    | _ => (WordPiece.marker ++ mjoin parts) :: WordPiece.merge_pieces tail
    end.
Proof.
  intros Htail. induction parts as [|part parts IH]; [done|].
  rewrite fmap_cons, <- app_comm_cons. cbn [WordPiece.merge_pieces].
  rewrite IH. destruct parts as [|part' parts].
  - rewrite mjoin_singleton.
    destruct (WordPiece.merge_pieces tail) as [|w ws] eqn:Hm; [done|].
    by rewrite (Htail w ws).
  - rewrite strip_marker_app, (mjoin_cons part). by rewrite <- app_assoc.
Qed.

Lemma merge_pieces_word (parts tail : list text) :
  parts ≠ [] →
  (∀ w ws, WordPiece.merge_pieces tail = w :: ws → WordPiece.strip_marker w = None) →
  WordPiece.merge_pieces (WordPiece.piece_keys true parts ++ tail) =
    mjoin parts :: WordPiece.merge_pieces tail.
Proof.
  intros Hne Htail. destruct parts as [|part parts]; [done|].
  unfold WordPiece.piece_keys, WordPiece.piece_key.
  rewrite <- app_comm_cons. cbn [WordPiece.merge_pieces].
  rewrite merge_pieces_marked by done.
  destruct parts as [|part' parts].
  - rewrite mjoin_singleton.
    destruct (WordPiece.merge_pieces tail) as [|w ws] eqn:Hm; [done|].
    by rewrite (Htail w ws).
  - by rewrite strip_marker_app, (mjoin_cons part).
Qed.

Lemma merge_pieces_words (partss : list (list text)) (last : text) :
  Forall (λ parts : list text, WordPiece.split_word (mjoin parts)) partss →
  WordPiece.strip_marker last = None →
  WordPiece.merge_pieces (mjoin (WordPiece.piece_keys true <$> partss) ++ [last]) =
    ((λ parts : list text, mjoin parts) <$> partss) ++ [last].
Proof.
  intros Hall Hlast. induction Hall as [|parts partss Hparts Hall IH]; [done|].
  rewrite !fmap_cons, mjoin_cons, <- app_assoc.
  rewrite merge_pieces_word.
  - by rewrite IH.
  - intros ->. by destruct Hparts as [[? _]|(? & ? & _)].
  - rewrite IH. intros w ws Hw. destruct Hall as [|parts' partss' H' _].
    + injection Hw as <- <-. done.
    + injection Hw as <- <-. by apply split_word_no_marker.
Qed.

Lemma wordpiece_parts (vocab : list text) (unk_id : Z) (w : text) :
  ¬ WordPiece.greedy_stuck vocab true w →
  ∃ parts : list text,
    mjoin parts = w ∧
    mapM (tf.gather1 vocab) (WordPiece.wordpiece vocab unk_id w) =
      Ok (WordPiece.piece_keys true parts).
Proof.
  intros Hw. unfold WordPiece.wordpiece.
  destruct (WordPiece.decompose (length w) vocab true w) as [ids|] eqn:Hdec.
  - by apply decompose_Some in Hdec.
  - exfalso. apply Hw. by eapply decompose_None_stuck.
Qed.

Lemma wordpiece_pieces (vocab : list text) (unk_id : Z) (words : list text) :
  Forall (λ w, ¬ WordPiece.greedy_stuck vocab true w) words →
  ∃ partss : list (list text),
    (λ parts : list text, mjoin parts) <$> partss = words ∧
    mapM (tf.gather1 vocab) (mjoin (WordPiece.wordpiece vocab unk_id <$> words)) =
      Ok (mjoin (WordPiece.piece_keys true <$> partss)).
Proof.
  induction 1 as [|w words Hw _ (partss & Hwords & Hpieces)].
  { by exists []. }
  destruct (wordpiece_parts vocab unk_id w Hw) as (parts & Hjoin & Hids).
  exists (parts :: partss). split; [by rewrite fmap_cons, Hjoin, Hwords|].
  rewrite !fmap_cons, !mjoin_cons. by apply mapM_app_Ok.
Qed.

Lemma kept_cells_words (words : list text) :
  Forall WordPiece.split_word words →
  kept_cells (RESERVED_TOKENS default_config)
    (str "[START]" :: words ++ [str "[END]"]) = words.
Proof.
  intros Hwords. unfold kept_cells, tf.boolean_mask.
  rewrite filter_cons, decide_False by done.
  rewrite filter_app, filter_cons, decide_False by done.
  rewrite filter_nil, app_nil_r.
  induction Hwords as [|w words Hw _ IH]; [done|].
  rewrite filter_cons, decide_True; [by rewrite IH|].
  by rewrite split_word_not_bad.
Qed.

(** C5, as amended.  Let the vocabulary hold "[START]" and "[END]" at the
    sentinel ids 2 and 3.  For every text none of whose words (of the
    case-folded text, split at blanks and punctuation) gets greedy
    longest-match decomposition stuck, detokenizing what [tokenize] returns
    gives the words of the case-folded text joined by single spaces. *)
Theorem round_trip (case_fold_utf8 : text → text) (vocab : list text)
    (unk_id : Z) (s : text) :
  vocab !! 2%nat = Some (str "[START]") →
  vocab !! 3%nat = Some (str "[END]") →
  Forall (λ w, ¬ WordPiece.greedy_stuck vocab true w)
    (WordPiece.word_split (case_fold_utf8 s)) →
  ∃ rows,
    tokenize default_config case_fold_utf8
      (tokenizer_of default_config vocab unk_id) [s] = Ok rows ∧
    detokenize (tokenizer_of default_config vocab unk_id) rows =
      Ok [tf.reduce_join (str " ") (WordPiece.word_split (case_fold_utf8 s))].
Proof.
  intros Hstart Hend Hwords.
  set (words := WordPiece.word_split (case_fold_utf8 s)) in *.
  pose proof (word_split_words (case_fold_utf8 s)) as Hshape. fold words in Hshape.
  destruct (wordpiece_pieces vocab unk_id words Hwords) as (partss & Hjoin & Hpieces).
  eexists. split.
  { unfold tokenize. by apply (add_start_end_rows default_config 2 3). }
  cbn [fmap list_fmap tf.merge_dims bert_tokenize tokenizer tokenizer_of
       WordPiece.model].
  unfold WordPiece.tokenize. fold words.
  unfold detokenize.
  cbn [bert_detokenize tokenizer tokenizer_of WordPiece.model _reserved_tokens].
  unfold WordPiece.detokenize, tf.gather.
  assert (mapM (tf.gather1 vocab)
            (2 :: mjoin (WordPiece.wordpiece vocab unk_id <$> words) ++ [3]) =
          Ok (str "[START]" ::
                mjoin (WordPiece.piece_keys true <$> partss) ++ [str "[END]"]))
    as Hrow.
  { apply (mapM_app_Ok _ [2] _ [str "[START]"]).
    - by apply mapM_singleton, (gather1_lookup vocab 2%nat).
    - apply mapM_app_Ok; [done|].
      by apply mapM_singleton, (gather1_lookup vocab 3%nat). }
  rewrite (mapM_singleton _ _ _ Hrow).
  cbn [mbind result_bind fmap list_fmap]. unfold cleanup_text.
  cbn [fmap list_fmap]. do 3 f_equal.
  cbn [WordPiece.merge_pieces].
  assert (Forall (λ parts : list text, WordPiece.split_word (mjoin parts)) partss)
    as Hparts.
  { clear -Hjoin Hshape. rewrite <- Hjoin in Hshape.
    rewrite Forall_fmap in Hshape. exact Hshape. }
  rewrite merge_pieces_words by done.
  rewrite Hjoin.
  assert (WordPiece.strip_marker (hd (str "[END]") (words ++ [str "[END]"])) = None)
    as Hhead.
  { destruct Hshape; [done|]. by apply split_word_no_marker. }
  destruct (words ++ [str "[END]"]) as [|w ws] eqn:Happ.
  { by destruct words. }
  cbn [hd] in Hhead. rewrite Hhead, <- Happ.
  apply kept_cells_words, Hshape.
Qed.

(** [round_trip] on "Hello  World!": case and the double blank are not
    recovered. *)
Lemma round_trip_witness :
  hello_vocab !! 2%nat = Some (str "[START]") ∧
  hello_vocab !! 3%nat = Some (str "[END]") ∧
  Forall (λ w, ¬ WordPiece.greedy_stuck hello_vocab true w)
    (WordPiece.word_split (ascii_case_fold (str "Hello  World!"))) ∧
  tokenize default_config ascii_case_fold
    (tokenizer_of default_config hello_vocab 1) [str "Hello  World!"] =
    Ok [[2; 4; 5; 6; 7; 8; 3]] ∧
  detokenize (tokenizer_of default_config hello_vocab 1) [[2; 4; 5; 6; 7; 8; 3]] =
    Ok [str "hello world !"].
Proof.
  assert (Forall (λ w, ¬ WordPiece.greedy_stuck hello_vocab true w)
            (WordPiece.word_split (ascii_case_fold (str "Hello  World!"))))
    as Hwords.
  { change (WordPiece.word_split (ascii_case_fold (str "Hello  World!")))
      with [str "hello"; str "world"; str "!"].
    repeat constructor; intros H;
      apply greedy_stuck_decompose with (fuel := 5%nat) in H; discriminate H. }
  destruct (round_trip ascii_case_fold hello_vocab 1 (str "Hello  World!")
              eq_refl eq_refl Hwords) as (rows & Htok & Hdet).
  assert (rows = [[2; 4; 5; 6; 7; 8; 3]]) as ->.
  { clear -Htok. vm_compute in Htok. by injection Htok as <-. }
  split_and!; [reflexivity | reflexivity | exact Hwords | exact Htok |].
  rewrite Hdet. reflexivity.
Defined.

(** C5, the claim as stated fails.  "abc" is made of the vocabulary pieces
    "a" and "##bc", but greedy longest-match takes "ab" first and finds no
    piece for "c": the word becomes the unknown id, and the round trip
    gives "[UNK]" where the words of the text joined by spaces are "abc". *)
Lemma round_trip_fails_on_greedy_miss :
  str "a" ∈ greedy_vocab ∧
  WordPiece.marker ++ str "bc" ∈ greedy_vocab ∧
  str "a" ++ str "bc" = str "abc" ∧
  tokenize default_config ascii_case_fold
    (tokenizer_of default_config greedy_vocab 1) [str "abc"] = Ok [[2; 1; 3]] ∧
  detokenize (tokenizer_of default_config greedy_vocab 1) [[2; 1; 3]] =
    Ok [str "[UNK]"] ∧
  tf.reduce_join (str " ") (WordPiece.word_split (ascii_case_fold (str "abc"))) =
    str "abc".
Proof.
  split_and!; try reflexivity; apply (bool_decide_unpack _); vm_compute; exact I.
Qed.

(** * Further properties of the notebook's code *)

(** ** Vocabulary files *)

Lemma splitlines_terminator_free_fuel (n : nat) (s : text) :
  (length s ≤ n)%nat →
  Forall (Forall (λ c, is_line_boundary c = false)) (splitlines s).
Proof.
  revert s. induction n as [|n IH]; intros s Hlen.
  { destruct s; [constructor | cbn in Hlen; lia]. }
  destruct s as [|c s]; [constructor|]. cbn [splitlines].
  destruct (is_line_boundary c) eqn:Hc.
  - destruct s as [|c' s']; [by repeat constructor|].
    case_bool_decide; (constructor; [constructor|]); apply IH; cbn in *; lia.
  - assert (Forall (Forall (λ c, is_line_boundary c = false)) (splitlines s))
      as Hs by (apply IH; cbn in *; lia).
    destruct (splitlines s) as [|line lines]; [by repeat constructor|].
    inversion Hs; subst. by repeat constructor.
Qed.

(** X2. Whatever the file holds, no piece that the vocabulary read returns
    contains a line terminator. *)
Theorem load_vocab_terminator_free (fs : gmap string (list ascii))
    (vocab_path : string) (lines : list text) :
  load_vocab fs vocab_path = Ok lines →
  Forall (Forall (λ c, is_line_boundary c = false)) lines.
Proof.
  unfold load_vocab, read_text. destruct (fs !! vocab_path) as [content|]; [|done].
  cbn. intros [= <-]. by apply (splitlines_terminator_free_fuel (length content)).
Qed.

Lemma load_vocab_terminator_free_witness :
  load_vocab {["vocab.txt"%string := str "he" ++ [newline] ++ str "##llo"]}
    "vocab.txt" = Ok [str "he"; str "##llo"] ∧
  Forall (Forall (λ c, is_line_boundary c = false)) [str "he"; str "##llo"].
Proof.
  assert (load_vocab {["vocab.txt"%string := str "he" ++ [newline] ++ str "##llo"]}
            "vocab.txt" = Ok [str "he"; str "##llo"]) as Hload.
  { unfold load_vocab, read_text. by rewrite lookup_singleton_eq. }
  split; [exact Hload|].
  exact (load_vocab_terminator_free _ _ _ Hload).
Defined.

Lemma load_vocab_written (fs : gmap string (list ascii)) (filepath : string)
    (vocab : list text) :
  load_vocab (write_vocab_file filepath vocab fs) filepath =
    Ok (splitlines (printed_lines vocab)).
Proof. unfold load_vocab, read_text, write_vocab_file. by rewrite lookup_insert_eq. Qed.

(** X1. Writing a vocabulary (pieces of code points below 256) with
    [write_vocab_file] and reading it back with the vocabulary read
    returns the same vocabulary exactly when no piece contains a line
    terminator. *)
Theorem write_load_round_trip (fs : gmap string (list ascii)) (filepath : string)
    (vocab : list text) :
  load_vocab (write_vocab_file filepath vocab fs) filepath = Ok vocab ↔
  Forall (Forall (λ c, is_line_boundary c = false)) vocab.
Proof.
  rewrite load_vocab_written. split.
  - intros [= Heq]. rewrite <- Heq.
    by apply (splitlines_terminator_free_fuel (length (printed_lines vocab))).
  - intros Hvocab. by rewrite splitlines_printed_lines.
Qed.

Example write_load_breaks_piece_with_newline :
  load_vocab (write_vocab_file "vocab.txt" [str "he" ++ [newline] ++ str "llo"] ∅)
    "vocab.txt" = Ok [str "he"; str "llo"].
Proof. by rewrite load_vocab_written. Qed.

Lemma splitlines_line_crlf (tok rest : text) :
  Forall (λ c, is_line_boundary c = false) tok →
  splitlines (tok ++ carriage_return :: newline :: rest) = tok :: splitlines rest.
Proof.
  induction 1 as [|c tok Hc _ IH].
  - cbn [app splitlines].
    replace (is_line_boundary carriage_return) with true by reflexivity.
    by rewrite bool_decide_eq_true_2.
  - cbn [app splitlines]. by rewrite Hc, IH.
Qed.

Lemma splitlines_last_line (tok : text) :
  tok ≠ [] → Forall (λ c, is_line_boundary c = false) tok → splitlines tok = [tok].
Proof.
  intros Hne Htok. induction Htok as [|c tok Hc Htok IH]; [done|].
  cbn [splitlines]. rewrite Hc. destruct tok as [|c' tok']; [done|].
  by rewrite IH.
Qed.

Lemma splitlines_printed_lines_app (vocab : list text) (rest : text) :
  Forall (Forall (λ c, is_line_boundary c = false)) vocab →
  splitlines (printed_lines vocab ++ rest) = vocab ++ splitlines rest.
Proof.
  unfold printed_lines. induction 1 as [|tok vocab Htok _ IH]; [done|].
  cbn. rewrite <- !app_assoc. cbn. rewrite splitlines_line by done.
  by f_equal.
Qed.

(** X5. The vocabulary read does not depend on how the lines of the file
    are terminated: a file whose lines end in CR LF, and a file whose last
    line has no terminator, give the same pieces as the file
    [write_vocab_file] prints. *)
Theorem load_vocab_terminator_style (fs : gmap string (list ascii))
    (vocab_path : string) (vocab : list text) (last : text) :
  Forall (Forall (λ c, is_line_boundary c = false)) (vocab ++ [last]) →
  last ≠ [] →
  load_vocab (<[vocab_path := printed_lines_crlf (vocab ++ [last])]> fs) vocab_path =
    Ok (vocab ++ [last]) ∧
  load_vocab (<[vocab_path := printed_lines vocab ++ last]> fs) vocab_path =
    Ok (vocab ++ [last]) ∧
  load_vocab (write_vocab_file vocab_path (vocab ++ [last]) fs) vocab_path =
    Ok (vocab ++ [last]).
Proof.
  intros Hall Hlast. split_and!.
  - unfold load_vocab, read_text. rewrite lookup_insert_eq. cbn. f_equal.
    unfold printed_lines_crlf. clear Hlast.
    induction Hall as [|tok toks Htok _ IH]; [done|].
    cbn. rewrite <- app_assoc. cbn. rewrite splitlines_line_crlf by done.
    by f_equal.
  - unfold load_vocab, read_text. rewrite lookup_insert_eq. cbn. f_equal.
    apply Forall_app in Hall as [Hvocab Hl]. inversion Hl; subst.
    rewrite splitlines_printed_lines_app by done.
    by rewrite splitlines_last_line.
  - by rewrite load_vocab_written, splitlines_printed_lines.
Qed.

Lemma load_vocab_terminator_style_witness :
  Forall (Forall (λ c, is_line_boundary c = false)) ([str "he"] ++ [str "##llo"]) ∧
  str "##llo" ≠ [] ∧
  load_vocab (<["vocab.txt"%string :=
                 str "he" ++ [carriage_return; newline] ++
                 str "##llo" ++ [carriage_return; newline]]> ∅) "vocab.txt" =
    Ok [str "he"; str "##llo"] ∧
  load_vocab (<["vocab.txt"%string := str "he" ++ [newline] ++ str "##llo"]> ∅)
    "vocab.txt" = Ok [str "he"; str "##llo"].
Proof.
  assert (Forall (Forall (λ c, is_line_boundary c = false))
            ([str "he"] ++ [str "##llo"])) as Hall by (repeat constructor).
  assert (str "##llo" ≠ []) as Hlast by done.
  destruct (load_vocab_terminator_style ∅ "vocab.txt" [str "he"] (str "##llo")
              Hall Hlast) as (Hcrlf & Hopen & _).
  split_and!; [exact Hall | exact Hlast | exact Hcrlf | exact Hopen].
Defined.

(** ** The corpus filter *)

Lemma non_latin1_search_false (sentence : list N) :
  non_latin1_search sentence = false ↔ Forall (λ c, c ≤ 255)%N sentence.
Proof.
  unfold non_latin1_search. induction sentence as [|c sentence IH]; cbn.
  - split; [constructor | done].
  - rewrite orb_false_iff, IH, N.ltb_ge, Forall_cons. tauto.
Qed.

(** X6. [filter_sentence] keeps a row exactly when every sentence of the
    row is at most [SENTENCE_MAX_LEN] characters long and has only
    characters up to code point 255; every sentence of a kept row is then
    the image of an 8-bit text. *)
Theorem filter_sentence_true (SENTENCE_MAX_LEN : Z) (row : list (list N)) :
  (filter_sentence SENTENCE_MAX_LEN row = true ↔
     Forall (λ sentence,
        Z.of_nat (length sentence) ≤ SENTENCE_MAX_LEN ∧
        Forall (λ c, c ≤ 255)%N sentence) row) ∧
  (filter_sentence SENTENCE_MAX_LEN row = true →
     Forall (λ sentence, ∃ t : list ascii, N_of_ascii <$> t = sentence) row).
Proof.
  assert (filter_sentence SENTENCE_MAX_LEN row = true ↔
     Forall (λ sentence,
        Z.of_nat (length sentence) ≤ SENTENCE_MAX_LEN ∧
        Forall (λ c, c ≤ 255)%N sentence) row) as Hiff.
  { induction row as [|sentence row IH]; cbn [filter_sentence].
    { split; [constructor | done]. }
    rewrite Forall_cons, <- IH, <- non_latin1_search_false.
    case_bool_decide; [split; [done | lia]|].
    destruct (non_latin1_search sentence); [split; [done | by intros [[_ ?] _]]|].
    split; [intros; split_and!; [lia | done..] | by intros [_ ?]]. }
  split; [done|]. intros Hrow%Hiff.
  eapply Forall_impl; [exact Hrow|]. intros sentence [_ Hc]. cbn beta.
  clear -Hc. induction Hc as [|c sentence Hc _ (t & <-)]; [by exists []|].
  exists (ascii_of_N c :: t). cbn. f_equal. apply N_ascii_embedding. lia.
Qed.

Lemma boolean_index_fmap {A} (f : A → bool) (df : list A) :
  boolean_index df (f <$> df) = filter (λ row, f row = true) df.
Proof.
  induction df as [|row df IH]; [done|]. cbn [fmap list_fmap boolean_index].
  change (list_fmap A bool f df) with (f <$> df).
  rewrite filter_cons, IH. by destruct (f row).
Qed.

Lemma mask_sum_fmap {A} (f : A → bool) (df : list A) :
  mask_sum (f <$> df) = length (filter (λ row, f row = true) df).
Proof.
  unfold mask_sum. induction df as [|row df IH]; [done|].
  rewrite !fmap_cons, filter_cons. cbn [sum_list sum_list_with].
  change (sum_list_with id (Nat.b2n <$> (f <$> df)))
    with (sum_list (Nat.b2n <$> (f <$> df))).
  rewrite IH. by destruct (f row).
Qed.

(** X7. For a corpus of at least one row, the filtered corpus [df[mask]]:
    its rows are rows of the corpus in their order, every one of them
    passes [filter_sentence] and every passing row is among them, their
    number is [mask.sum()] and at most the number of rows read, and
    filtering it again (when a row is left) removes nothing. *)
Theorem filter_corpus_kept (SENTENCE_MAX_LEN : Z) (df : list (list (list N))) :
  df ≠ [] →
  ∃ mask kept,
    apply_filter SENTENCE_MAX_LEN df = Some mask ∧
    filter_corpus SENTENCE_MAX_LEN df = Some kept ∧
    kept `sublist_of` df ∧
    Forall (λ row, filter_sentence SENTENCE_MAX_LEN row = true) kept ∧
    (∀ row, row ∈ df → filter_sentence SENTENCE_MAX_LEN row = true → row ∈ kept) ∧
    length kept = mask_sum mask ∧
    (mask_sum mask ≤ length df)%nat ∧
    (kept ≠ [] → filter_corpus SENTENCE_MAX_LEN kept = Some kept).
Proof.
  intros Hne.
  assert (∀ rows : list (list (list N)), rows ≠ [] →
            filter_corpus SENTENCE_MAX_LEN rows =
              Some (filter (λ row, filter_sentence SENTENCE_MAX_LEN row = true) rows))
    as Hfilter.
  { intros rows Hrows. unfold filter_corpus, apply_filter.
    destruct rows as [|row rows]; [done|]. cbn [mbind option_bind].
    by rewrite boolean_index_fmap. }
  exists (filter_sentence SENTENCE_MAX_LEN <$> df),
    (filter (λ row, filter_sentence SENTENCE_MAX_LEN row = true) df).
  split_and!.
  - by destruct df.
  - by apply Hfilter.
  - apply sublist_filter.
  - apply Forall_forall. by intros row [? _]%list_elem_of_filter.
  - intros row Hin Hrow. by apply list_elem_of_filter.
  - by rewrite mask_sum_fmap.
  - rewrite mask_sum_fmap. apply length_filter.
  - intros Hkept. rewrite Hfilter by done. f_equal.
    by apply list_filter_filter_l.
Qed.

(** [filter_corpus_kept] on a corpus of two rows, the second holding a
    character outside Latin-1. *)
Lemma filter_corpus_kept_witness :
  [[[104; 105]; [104; 101; 105]]; [[104; 105]; [321]]]%N ≠ [] ∧
  filter_corpus 5 [[[104; 105]; [104; 101; 105]]; [[104; 105]; [321]]]%N =
    Some [[[104; 105]; [104; 101; 105]]]%N.
Proof.
  assert ([[[104; 105]; [104; 101; 105]]; [[104; 105]; [321]]]%N ≠ []) as Hne by done.
  split; [exact Hne|].
  destruct (filter_corpus_kept 5 _ Hne) as (mask & kept & _ & Hkept & _).
  rewrite Hkept. clear -Hkept. vm_compute in Hkept. by injection Hkept as <-.
Defined.

(** ** Lookup and the sentinel ids *)

Lemma mapM_Ok_Forall2 {A B} (f : A → result B) (l : list A) (k : list B) :
  mapM f l = Ok k ↔ Forall2 (λ a b, f a = Ok b) l k.
Proof.
  split.
  - revert k. induction l as [|a l IH]; intros k; cbn.
    { intros [= <-]. constructor. }
    destruct (f a) as [b|e] eqn:Hfa; cbn; [|done].
    destruct (mapM f l) as [bs|e]; cbn; [|done].
    intros [= <-]. constructor; [done | by apply IH].
  - induction 1 as [|a b l k Hab _ IH]; cbn; [done|].
    by rewrite Hab, IH.
Qed.

Lemma gather1_Ok {A} (params : list A) (id : Z) (p : A) :
  tf.gather1 params id = Ok p ↔ 0 ≤ id ∧ params !! Z.to_nat id = Some p.
Proof.
  unfold tf.gather1. case_bool_decide.
  - destruct (params !! Z.to_nat id) as [q|]; split;
      [by intros [= <-] | by intros [_ [= <-]] | done | by intros [_ ?]].
  - split; [done | intros [? _]; lia].
Qed.

(** X8. [lookup] returns pieces exactly when every id lies in
    0 .. vocab_size-1; the result then has the shape of the ids, and the
    piece at each place is the vocabulary entry at that id. *)
Theorem lookup_succeeds_iff (self : CustomTokenizer) (token_ids : list (list Z)) :
  ((∃ pieces, lookup self token_ids = Ok pieces) ↔
     Forall (Forall (λ id, 0 ≤ id < get_vocab_size self)) token_ids) ∧
  (∀ pieces, lookup self token_ids = Ok pieces →
     Forall2 (Forall2 (λ id piece, vocab self !! Z.to_nat id = Some piece))
       token_ids pieces).
Proof.
  assert (∀ pieces, lookup self token_ids = Ok pieces →
     Forall2 (Forall2 (λ id piece,
        0 ≤ id ∧ vocab self !! Z.to_nat id = Some piece)) token_ids pieces) as Hshape.
  { intros pieces Hok. unfold lookup, tf.gather in Hok.
    apply mapM_Ok_Forall2 in Hok. eapply Forall2_impl; [exact Hok|].
    intros row prow Hrow. cbn beta in Hrow. apply mapM_Ok_Forall2 in Hrow.
    eapply Forall2_impl; [exact Hrow|]. intros id p. apply gather1_Ok. }
  split_and!; [split|].
  - intros [pieces Hok%Hshape]. unfold get_vocab_size.
    clear -Hok. induction Hok as [|row prow rows prows Hrow _ IH]; constructor; [|done].
    clear -Hrow. induction Hrow as [|id p ids ps [Hid Hp] _ IH]; constructor; [|done].
    apply lookup_lt_Some in Hp. lia.
  - intros Hall. destruct (lookup self token_ids) as [pieces|e] eqn:Hl; [by eexists|].
    exfalso. unfold lookup, tf.gather in Hl.
    apply mapM_Raise_inv in Hl as (row & Hrow & Hl).
    apply mapM_Raise_inv in Hl as (id & Hid & Hl).
    apply gather1_Raise_inv in Hl as [_ Hout].
    rewrite Forall_forall in Hall. specialize (Hall row Hrow).
    rewrite Forall_forall in Hall. specialize (Hall id Hid).
    unfold get_vocab_size in Hall. lia.
  - intros pieces Hok%Hshape. eapply Forall2_impl; [exact Hok|].
    intros row prow Hrow. eapply Forall2_impl; [exact Hrow|]. by intros ? ? [_ ?].
Qed.

Lemma scan_index (tokens : list text) (s : text) :
  tokens ≠ [] →
  ∃ i, tf.argmax (tf.equal tokens s) = Ok (Z.of_nat i) ∧
       (i < length tokens)%nat ∧
       (s ∈ tokens → tokens !! i = Some s).
Proof.
  intros Hne. rewrite argmax_equal by done.
  destruct (list_find (λ tok, tok = s) tokens) as [[i tok]|] eqn:Hfind.
  - apply list_find_Some in Hfind as (Hi & -> & _). exists i. cbn.
    split_and!; [done | by eapply lookup_lt_Some | done].
  - exists 0%nat. cbn. split_and!; [done | destruct tokens; [done | cbn; lia] |].
    intros Hin. apply list_find_None in Hfind. rewrite Forall_forall in Hfind.
    by destruct (Hfind s Hin).
Qed.

(** X9. For a non-empty reserved list the two sentinel ids are always
    indices into the list; when the list names both "[START]" and "[END]",
    the ids are different and are the places of these two tokens. *)
Theorem sentinel_ids_in_range (config : Config) :
  RESERVED_TOKENS config ≠ [] →
  ∃ start end_,
    START config = Ok start ∧ END config = Ok end_ ∧
    0 ≤ start < Z.of_nat (length (RESERVED_TOKENS config)) ∧
    0 ≤ end_ < Z.of_nat (length (RESERVED_TOKENS config)) ∧
    (str "[START]" ∈ RESERVED_TOKENS config →
     str "[END]" ∈ RESERVED_TOKENS config →
       start ≠ end_ ∧
       RESERVED_TOKENS config !! Z.to_nat start = Some (str "[START]") ∧
       RESERVED_TOKENS config !! Z.to_nat end_ = Some (str "[END]")).
Proof.
  intros Hne.
  destruct (scan_index (RESERVED_TOKENS config) (str "[START]") Hne)
    as (i & Hs & Hi & Hstart).
  destruct (scan_index (RESERVED_TOKENS config) (str "[END]") Hne)
    as (j & He & Hj & Hend).
  exists (Z.of_nat i), (Z.of_nat j). split_and!; [done | done | lia.. |].
  intros His%Hstart Hie%Hend. rewrite !Nat2Z.id. split_and!; [|done..].
  intros Heq%Nat2Z.inj. subst j. rewrite His in Hie. discriminate Hie.
Qed.

Lemma sentinel_ids_in_range_witness :
  RESERVED_TOKENS default_config ≠ [] ∧
  ∃ start end_,
    START default_config = Ok start ∧ END default_config = Ok end_ ∧
    0 ≤ start < Z.of_nat (length (RESERVED_TOKENS default_config)) ∧
    0 ≤ end_ < Z.of_nat (length (RESERVED_TOKENS default_config)) ∧
    (str "[START]" ∈ RESERVED_TOKENS default_config →
     str "[END]" ∈ RESERVED_TOKENS default_config →
       start ≠ end_ ∧
       RESERVED_TOKENS default_config !! Z.to_nat start = Some (str "[START]") ∧
       RESERVED_TOKENS default_config !! Z.to_nat end_ = Some (str "[END]")).
Proof.
  assert (RESERVED_TOKENS default_config ≠ []) as Hne by done.
  split; [exact Hne|]. exact (sentinel_ids_in_range default_config Hne).
Defined.

Lemma gather_framed {A} (params : list A) (start end_ : Z) (ps pe : A)
    (cores : list (list Z)) (pieces : list (list A)) :
  tf.gather1 params start = Ok ps →
  tf.gather1 params end_ = Ok pe →
  tf.gather params cores = Ok pieces →
  tf.gather params ((λ core, start :: core ++ [end_]) <$> cores) =
    Ok ((λ row, ps :: row ++ [pe]) <$> pieces).
Proof.
  intros Hs He. unfold tf.gather. rewrite !mapM_Ok_Forall2.
  intros Hcores. apply Forall2_fmap. eapply Forall2_impl; [exact Hcores|].
  intros core row Hrow. cbn beta in *.
  apply (mapM_app_Ok _ [start] _ [ps]); [by apply mapM_singleton|].
  apply mapM_app_Ok; [done | by apply mapM_singleton].
Qed.

(** X10. Looking up what [tokenize] returns: when the reserved tokens name
    both sentinels and the vocabulary begins with the reserved tokens, and
    the ids of the wrapped tokenizer can be looked up, every row of pieces
    is the row of the core pieces with "[START]" in front and "[END]"
    behind. *)
Theorem lookup_tokenize_sentinels (config : Config) (case_fold_utf8 : text → text)
    (self : CustomTokenizer) (strings : list text) (pieces : list (list text)) :
  str "[START]" ∈ RESERVED_TOKENS config →
  str "[END]" ∈ RESERVED_TOKENS config →
  RESERVED_TOKENS config `prefix_of` vocab self →
  lookup self
    (tf.merge_dims (bert_tokenize (tokenizer self) (case_fold_utf8 <$> strings))) =
    Ok pieces →
  ∃ rows,
    tokenize config case_fold_utf8 self strings = Ok rows ∧
    lookup self rows =
      Ok ((λ row, str "[START]" :: row ++ [str "[END]"]) <$> pieces).
Proof.
  intros Hstart Hend Hprefix Hcores.
  assert (RESERVED_TOKENS config ≠ []) as Hne.
  { intros Hnil. rewrite Hnil in Hstart. by apply elem_of_nil in Hstart. }
  destruct (scan_index (RESERVED_TOKENS config) (str "[START]") Hne)
    as (i & Hs & _ & Hi).
  destruct (scan_index (RESERVED_TOKENS config) (str "[END]") Hne)
    as (j & He & _ & Hj).
  eexists. split.
  { unfold tokenize. by apply (add_start_end_rows config (Z.of_nat i) (Z.of_nat j)). }
  unfold lookup. apply gather_framed; [| |done].
  - apply gather1_lookup. eapply prefix_lookup_Some; [by apply Hi | done].
  - apply gather1_lookup. eapply prefix_lookup_Some; [by apply Hj | done].
Qed.

Lemma lookup_tokenize_sentinels_witness :
  str "[START]" ∈ RESERVED_TOKENS default_config ∧
  str "[END]" ∈ RESERVED_TOKENS default_config ∧
  RESERVED_TOKENS default_config `prefix_of` vocab (tokenizer_of default_config hello_vocab 1) ∧
  lookup (tokenizer_of default_config hello_vocab 1)
    (tf.merge_dims
       (bert_tokenize (tokenizer (tokenizer_of default_config hello_vocab 1))
          (ascii_case_fold <$> [str "Hello world"]))) =
    Ok [str <$> ["he"; "##llo"; "wor"; "##ld"]%string] ∧
  ∃ rows,
    tokenize default_config ascii_case_fold
      (tokenizer_of default_config hello_vocab 1) [str "Hello world"] = Ok rows ∧
    lookup (tokenizer_of default_config hello_vocab 1) rows =
      Ok ((λ row, str "[START]" :: row ++ [str "[END]"]) <$>
            [str <$> ["he"; "##llo"; "wor"; "##ld"]%string]).
Proof.
  assert (str "[START]" ∈ RESERVED_TOKENS default_config) as Hs
    by (apply (bool_decide_unpack _); vm_compute; exact I).
  assert (str "[END]" ∈ RESERVED_TOKENS default_config) as He
    by (apply (bool_decide_unpack _); vm_compute; exact I).
  assert (RESERVED_TOKENS default_config `prefix_of`
            vocab (tokenizer_of default_config hello_vocab 1)) as Hp.
  { by exists (str <$> ["he"; "##llo"; "wor"; "##ld"; "!"]%string). }
  split_and!; [exact Hs | exact He | exact Hp | reflexivity |].
  apply (lookup_tokenize_sentinels default_config ascii_case_fold
           (tokenizer_of default_config hello_vocab 1) [str "Hello world"]
           [str <$> ["he"; "##llo"; "wor"; "##ld"]%string] Hs He Hp).
  reflexivity.
Defined.

(** ** What cleanup leaves alone *)

Lemma kept_cells_id (reserved_tokens : list text) (row : list text) :
  Forall (λ cell, cell ≠ [] ∧ (cell ∈ reserved_tokens → cell = str "[UNK]")) row →
  kept_cells reserved_tokens row = row.
Proof.
  intros Hrow. unfold kept_cells, tf.boolean_mask.
  induction Hrow as [|cell row [Hne Hcell] _ IH]; [done|].
  rewrite filter_cons, decide_True; [by rewrite IH|].
  apply negb_true_iff, not_true_is_false.
  rewrite regex_full_match_literals_true, elem_of_bad_tokens.
  intros [[Hin Hunk]|[_ Hnil]]; [by apply Hunk, Hcell | done].
Qed.

(** X11. [detokenize] drops nothing else: when none of the words the
    wrapped detokenizer returns is empty or a reserved token other than
    "[UNK]", every row of the output is the single-space join of all words
    of the row. *)
Theorem detokenize_keeps_other_words (self : CustomTokenizer)
    (tokenized : list (list Z)) (words : list (list text)) :
  bert_detokenize (tokenizer self) tokenized = Ok words →
  Forall (Forall (λ cell,
     cell ≠ [] ∧ (cell ∈ _reserved_tokens self → cell = str "[UNK]"))) words →
  detokenize self tokenized = Ok (tf.reduce_join (str " ") <$> words).
Proof.
  intros Hwords Hall. unfold detokenize. rewrite Hwords. cbn. f_equal.
  unfold cleanup_text. rewrite <- list_fmap_compose.
  apply Forall_fmap_ext_1. eapply Forall_impl; [exact Hall|].
  intros row Hrow. cbn. by rewrite kept_cells_id.
Qed.

Lemma detokenize_keeps_other_words_witness :
  bert_detokenize (tokenizer (tokenizer_of default_config hello_vocab 1))
    [[4; 5; 1; 8]] = Ok [str <$> ["hello"; "[UNK]"; "!"]%string] ∧
  Forall (Forall (λ cell,
     cell ≠ [] ∧
     (cell ∈ _reserved_tokens (tokenizer_of default_config hello_vocab 1) →
      cell = str "[UNK]"))) [str <$> ["hello"; "[UNK]"; "!"]%string] ∧
  detokenize (tokenizer_of default_config hello_vocab 1) [[4; 5; 1; 8]] =
    Ok [str "hello [UNK] !"].
Proof.
  assert (Forall (Forall (λ cell,
     cell ≠ [] ∧
     (cell ∈ _reserved_tokens (tokenizer_of default_config hello_vocab 1) →
      cell = str "[UNK]"))) [str <$> ["hello"; "[UNK]"; "!"]%string]) as Hall.
  { repeat constructor; try done; intros Hin; exfalso; revert Hin;
      apply (bool_decide_unpack _); vm_compute; exact I. }
  split_and!; [reflexivity | exact Hall |].
  pose proof (detokenize_keeps_other_words
                (tokenizer_of default_config hello_vocab 1)
                [[4; 5; 1; 8]] [str <$> ["hello"; "[UNK]"; "!"]%string]
                eq_refl Hall) as Hdet.
  exact Hdet.
Defined.
